(** * framework-lock: a Redis lease lock, embedded and verified

    Shallow embedding of the Go package [lock] (lock.go, the configuration
    file, the tracing wrapper and the interface file) together with the
    properties its specification states about it.

    Layout:
    - [Go]: the few runtime notions the package uses ([time.Duration],
      [error] values built by [fmt.Errorf], [%d] formatting,
      [Duration.Seconds]).
    - [Config], [Options]: the two configuration records and
      [Validate] / [ToOptions].
    - [Lua]: the two server-side scripts of lock.go as syntax.
    - the effect monad [M]: state passing over an abstract world plus the
      list of effects performed, the interfaces [RedisClient] and
      [Runtime], and the methods of [RedisLock].  What a method does to
      its collaborators is read off the trace of its run.
    - [Ref]: a reference store (entries with a remaining lease, a clock,
      scheduled round-trip failures) that interprets the scripts and
      implements both interfaces, and [Scenario]: handles and worlds to
      run the methods on.
    - lemmas on running the methods; then the properties: those of the
      acquisition loop, of token generation and of the defaults hold for
      every client and runtime, those that speak of the store's content
      are stated on the reference store. *)

From Stdlib Require Import ZArith Lia DecimalString DecimalZ Floats Uint63.
From stdpp Require Import gmap strings list fin_maps.

Open Scope Z_scope.

(* ===================================================================== *)
(** ** Go runtime notions                                                 *)
(* ===================================================================== *)

Module Go.

(** [time.Duration] is an [int64] count of nanoseconds. *)
Definition Duration := Z.

Definition Nanosecond : Duration := 1.
Definition Millisecond : Duration := 1000000.
Definition Second : Duration := 1000000000.

(** [float64(x)] for an [int64] whose magnitude is below [2^63]: the
    nearest double, ties to even. *)
Definition float64_of_int (z : Z) : float :=
  if z <? 0 then (- PrimFloat.of_uint63 (Uint63.of_Z (- z)))%float
  else PrimFloat.of_uint63 (Uint63.of_Z z).

(** [int(f)]: the conversion discards the fraction (truncation toward
    zero).  Not-a-number and infinities do not arise from a duration. *)
Definition int_of_float64 (f : float) : Z :=
  match Prim2SF f with
  | S754_finite s m e =>
      let v := if 0 <=? e then Z.pos m * 2 ^ e else Z.pos m / 2 ^ (- e) in
      if s then - v else v
  | _ => 0
  end.

(** [func (d Duration) Seconds() float64]:
    [sec := d / Second; nsec := d % Second;
     return float64(sec) + float64(nsec)/1e9]
    with Go's truncating [/] and [%]. *)
Definition Seconds (d : Duration) : float :=
  (float64_of_int (Z.quot d Second)
   + float64_of_int (Z.rem d Second) / float64_of_int 1000000000)%float.

(** [func (d Duration) Milliseconds() int64 { return int64(d) / 1e6 }]. *)
Definition Milliseconds (d : Duration) : Z := Z.quot d 1000000.

(** [fmt.Sprintf("%d", n)]: decimal digits, a leading [-] when negative. *)
Definition Sprintf_d (n : Z) : string := NilZero.string_of_int (Z.to_int n).

(** Go [error] values as this package sees them: the two context errors,
    an error handed over by a collaborator (the store adapter), and the
    two ways the package itself builds errors with [fmt.Errorf]: a plain
    message, or a prefix followed by [%w] wrapping a cause. *)
Inductive error : Type :=
| Canceled
| DeadlineExceeded
| External (msg : string)
| Errorf (msg : string)
| ErrorfW (prefix : string) (cause : error).

(** [err.Error()]. *)
Fixpoint Error (e : error) : string :=
  match e with
  | Canceled => "context canceled"
  | DeadlineExceeded => "context deadline exceeded"
  | External msg => msg
  | Errorf msg => msg
  | ErrorfW prefix cause => prefix +:+ Error cause
  end.

(** [errors.Unwrap(err)]: only [%w] records a cause. *)
Definition Unwrap (e : error) : option error :=
  match e with
  | ErrorfW _ cause => Some cause
  | _ => None
  end.

#[export] Instance error_eq_dec : EqDecision error.
Proof. solve_decision. Defined.

End Go.
Export Go.

(* ===================================================================== *)
(** ** Configuration                                                      *)
(* ===================================================================== *)

(** [type Options struct], the options a handle works with. *)
Module Options.
Record t : Type := mk {
  Key : string;
  TTL : Duration;
  RetryDelay : Duration;
  MaxRetries : Z;
  EnableTrace : bool
}.
End Options.

(** [type Config struct].  The two [pkgConfig.Duration] fields are kept as
    the [time.Duration] their [Duration()] method yields. *)
Module Config.
Record t : Type := mk {
  Enabled : bool;
  TTL : Duration;
  RetryDelay : Duration;
  MaxRetries : Z;
  EnableTrace : bool
}.

(** [Config.Validate]; the pointer receiver may be [nil]. *)
Definition Validate (c : option t) : option error :=
  match c with
  | None => Some (Errorf "lock config cannot be nil")
  | Some c =>
      if negb (Enabled c) then None
      else if TTL c <=? 0 then Some (Errorf "lock ttl must be greater than 0")
      else if MaxRetries c <? 0 then
        Some (Errorf "lock max_retries must be non-negative")
      else None
  end.

(** [Config.ToOptions]: returns a pointer to [Options] (or [nil]) and an
    [error]. *)
Definition ToOptions (c : option t) : option Options.t * option error :=
  match Validate c with
  | Some err => (None, Some err)
  | None =>
      match c with
      | None => (None, None) (* not reached: Validate rejects nil *)
      | Some c =>
          if negb (Enabled c) then (None, Some (Errorf "lock is not enabled"))
          else
            let ttl := TTL c in
            let ttl := if ttl =? 0 then 30 * Second else ttl in
            let retryDelay := RetryDelay c in
            let retryDelay :=
              if retryDelay =? 0 then 100 * Millisecond else retryDelay in
            let maxRetries := MaxRetries c in
            let maxRetries := if maxRetries =? 0 then 3 else maxRetries in
            (Some (Options.mk "" ttl retryDelay maxRetries (EnableTrace c)),
             None)
      end
  end.
End Config.

(* ===================================================================== *)
(** ** The server-side scripts                                            *)
(* ===================================================================== *)

(** lock.go hands two Lua scripts to [Eval].  They are kept as syntax: the
    fragment of Lua they are written in, with [redis.call] as a
    constructor.  The store that runs them gives them their meaning
    (module [Ref] below). *)
Module Lua.

(** [KEYS[i]] and [ARGV[i]] (Lua counts from 1). *)
Inductive atom : Type :=
| KEYS (i : nat)
| ARGV (i : nat).

Inductive expr : Type :=
| Atom (a : atom)
| Num (z : Z)
| Call (cmd : string) (args : list atom)   (* redis.call(cmd, args...) *)
| Eq (a b : expr).                         (* a == b *)

Inductive stmt : Type :=
| Return (e : expr)
| If (c : expr) (t e : stmt).              (* if c then t else e end *)

#[export] Instance atom_eq_dec : EqDecision atom.
Proof. solve_decision. Defined.

#[export] Instance expr_eq_dec : EqDecision expr.
Proof. solve_decision. Defined.

#[export] Instance stmt_eq_dec : EqDecision stmt.
Proof. solve_decision. Defined.

End Lua.

(** The script of [unlock]:
<<
    if redis.call("get", KEYS[1]) == ARGV[1] then
        return redis.call("del", KEYS[1])
    else
        return 0
    end
>> *)
Definition unlock_script : Lua.stmt :=
  Lua.If (Lua.Eq (Lua.Call "get" [Lua.KEYS 1]) (Lua.Atom (Lua.ARGV 1)))
    (Lua.Return (Lua.Call "del" [Lua.KEYS 1]))
    (Lua.Return (Lua.Num 0)).

(** The script of [extend]:
<<
    if redis.call("get", KEYS[1]) == ARGV[1] then
        return redis.call("expire", KEYS[1], ARGV[2])
    else
        return 0
    end
>> *)
Definition extend_script : Lua.stmt :=
  Lua.If (Lua.Eq (Lua.Call "get" [Lua.KEYS 1]) (Lua.Atom (Lua.ARGV 1)))
    (Lua.Return (Lua.Call "expire" [Lua.KEYS 1; Lua.ARGV 2]))
    (Lua.Return (Lua.Num 0)).

(** An argument of the variadic [args ...interface{}] of [Eval]: the
    package passes a [string] (the token) and an [int]. *)
Inductive Arg : Type :=
| ArgString (s : string)
| ArgInt (n : Z).

(** What [Eval] hands back as [interface{}]: a Redis reply. *)
Inductive Reply : Type :=
| ReplyNil
| ReplyInt (n : Z)
| ReplyString (s : string).

#[export] Instance Arg_eq_dec : EqDecision Arg.
Proof. solve_decision. Defined.

#[export] Instance Reply_eq_dec : EqDecision Reply.
Proof. solve_decision. Defined.

(* ===================================================================== *)
(** ** Effects                                                            *)
(* ===================================================================== *)

(** What the tracing wrapper tells its collaborators (framework-trace,
    framework-log).  None of these calls returns anything the package
    reads, so they appear in the model only as recorded effects. *)
Inductive Obs : Type :=
| SpanStart (name operation key : string)     (* pkgtrace.StartSpan *)
| SpanEnd                                     (* defer span.End() *)
| LogError (msg operation key : string) (duration : Duration) (err : error)
| LogInfo (msg operation key : string) (duration : Duration)
| SpanDurationMs (ms : Z)                     (* lock.duration_ms *)
| SpanStatusError (description : string)      (* SetStatus(codes.Error, _) *)
| SpanRecordError (err : error)
| SpanStatusOk.                               (* SetStatus(codes.Ok, "") *)

(** Every effect a method performs, in order, with what came back. *)
Inductive Event : Type :=
| EvSetNX (key value : string) (ttl : Duration) (res : bool * option error)
| EvEval (script : Lua.stmt) (keys : list string) (args : list Arg)
    (res : Reply * option error)
| EvSelect (d : Duration) (done : option error)
    (* select { case <-ctx.Done(): ... case <-time.After(d): } ;
       [Some e]: Done won and [ctx.Err()] is [e]; [None]: the timer won *)
| EvNow (t : Z)                               (* time.Now(), as UnixNano *)
| EvObs (o : Obs).

(** The store or timer effects, as opposed to clock reads and
    observability. *)
Definition is_protocol (e : Event) : bool :=
  match e with
  | EvSetNX _ _ _ _ | EvEval _ _ _ _ | EvSelect _ _ => true
  | EvNow _ | EvObs _ => false
  end.

Definition is_SetNX (e : Event) : bool :=
  match e with EvSetNX _ _ _ _ => true | _ => false end.

Definition is_Select (e : Event) : bool :=
  match e with EvSelect _ _ => true | _ => false end.

Definition protocol (tr : list Event) : list Event :=
  List.filter is_protocol tr.

(** Number of [TryLock] attempts in a trace: each attempt is exactly one
    [SetNX] round trip, and nothing else issues [SetNX]. *)
Definition attempts (tr : list Event) : nat :=
  length (List.filter is_SetNX tr).

(** Number of inter-attempt waits in a trace: the [select] of [lock]. *)
Definition waits (tr : list Event) : nat :=
  length (List.filter is_Select tr).

(** An attempt that was refused: [SetNX] answered "not created", no
    error.  This is what a caller sees while another owner holds the key. *)
Definition refused (ev : Event) : Prop :=
  match ev with
  | EvSetNX _ _ _ res => res = (false, None)
  | _ => True
  end.

(** A wait that ran its full delay: the timer won the race. *)
Definition wait_completed (ev : Event) : Prop :=
  match ev with
  | EvSelect _ done => done = None
  | _ => True
  end.

(** [type RedisClient interface]: the four methods, as transitions of the
    world [W] the client talks to.  [Client] is the type of client values
    and [Ctx] of [context.Context] values. *)
Class RedisClient (Client Ctx W : Type) : Type := {
  SetNX : Client -> Ctx -> string -> string -> Duration -> W ->
          (bool * option error) * W;
  Del : Client -> Ctx -> list string -> W -> option error * W;
  Eval : Client -> Ctx -> Lua.stmt -> list string -> list Arg -> W ->
         (Reply * option error) * W;
  Expire : Client -> Ctx -> string -> Duration -> W -> option error * W
}.

(** What the package uses of the Go runtime: the wall clock, and the race
    between a context's [Done] channel and a timer. *)
Class Runtime (Ctx W : Type) : Type := {
  time_Now : W -> Z * W;
  select_Done_After : Ctx -> Duration -> W -> option error * W
}.

(** Computations: a transition of the world that also yields the effects
    it performed, oldest first. *)
Definition M (W A : Type) : Type := W -> A * W * list Event.

#[export] Instance M_ret {W} : MRet (M W) := fun A a w => (a, w, []).

#[export] Instance M_bind {W} : MBind (M W) := fun A B f m w =>
  let '(a, w1, t1) := m w in
  let '(b, w2, t2) := f a w1 in
  (b, w2, t1 ++ t2).

Definition result {W A} (r : A * W * list Event) : A := r.1.1.
Definition world {W A} (r : A * W * list Event) : W := r.1.2.
Definition trace {W A} (r : A * W * list Event) : list Event := r.2.

(* ===================================================================== *)
(** ** The lock handle and its methods                                    *)
(* ===================================================================== *)

(** [type RedisLock struct].  [options] is a pointer in the source; no
    method writes through it, so the record holds the value. *)
Record RedisLock (Client : Type) : Type := mkRedisLock {
  client : Client;
  options : Options.t;
  value : string
}.
Arguments mkRedisLock {Client} _ _ _.
Arguments client {Client} _.
Arguments options {Client} _.
Arguments value {Client} _.

Section Methods.
Context {Client Ctx W : Type}.
Context `{!RedisClient Client Ctx W, !Runtime Ctx W}.

(** The primitive effects, each recorded with its outcome. *)
Definition Now : M W Z := fun w =>
  let '(t, w') := time_Now (Ctx := Ctx) w in (t, w', [EvNow t]).

Definition Since (start : Z) : M W Duration :=
  t ← Now; mret (t - start).

Definition observe (o : Obs) : M W unit := fun w => (tt, w, [EvObs o]).

Definition select (ctx : Ctx) (d : Duration) : M W (option error) := fun w =>
  let '(r, w') := select_Done_After ctx d w in (r, w', [EvSelect d r]).

Definition call_SetNX (c : Client) (ctx : Ctx) (key val : string)
    (ttl : Duration) : M W (bool * option error) := fun w =>
  let '(r, w') := SetNX c ctx key val ttl w in (r, w', [EvSetNX key val ttl r]).

Definition call_Eval (c : Client) (ctx : Ctx) (script : Lua.stmt)
    (keys : list string) (args : list Arg) : M W (Reply * option error) :=
  fun w =>
  let '(r, w') := Eval c ctx script keys args w in
  (r, w', [EvEval script keys args r]).

(** [func generateLockValue() string]. *)
Definition generateLockValue : M W string :=
  t ← Now; mret (Sprintf_d t).

(** [func NewRedisLock(client RedisClient, opts *Options) *RedisLock]. *)
Definition NewRedisLock (c : Client) (opts : option Options.t)
    : M W (RedisLock Client) :=
  let opts :=
    match opts with
    | None =>
        Options.mk "" (30 * Second) (100 * Millisecond) 3 true
    | Some o => o
    end in
  v ← generateLockValue;
  mret (mkRedisLock c opts v).

(** [func lockWithTrace(ctx, operation, key, handler, enableTrace) error].

    The handler of the source returns an [error]; the closure [TryLock]
    passes also assigns the captured variable [ok].  What a handler
    leaves in captured variables is the component [A] of its result
    ([unit] for the other three operations); the wrapper hands it
    through untouched.  [StartSpan] returns a context derived from
    [ctx] (it carries the span); cancellation is inherited, so the
    handler is run on [ctx].  The span returned is never [nil]. *)
Definition lockWithTrace {A} (ctx : Ctx) (operation key : string)
    (handler : Ctx -> M W (A * option error)) (enableTrace : bool)
    : M W (A * option error) :=
  startTime ← Now;
  _ ← (if enableTrace
       then observe (SpanStart ("lock." +:+ operation) operation key)
       else mret tt);
  '(a, err) ← handler ctx;
  duration ← Since startTime;
  _ ← match err with
      | Some e =>
          observe (LogError "Lock operation failed" operation key duration e)
      | None =>
          observe (LogInfo "Lock operation completed" operation key duration)
      end;
  _ ← (if enableTrace then
         _ ← observe (SpanDurationMs (Milliseconds duration));
         match err with
         | Some e =>
             _ ← observe (SpanStatusError (Error e));
             observe (SpanRecordError e)
         | None => observe SpanStatusOk
         end
       else mret tt);
  _ ← (if enableTrace then observe SpanEnd else mret tt);
  mret (a, err).

(** [func (l *RedisLock) tryLock(ctx) (bool, error)]. *)
Definition tryLock (ctx : Ctx) (l : RedisLock Client)
    : M W (bool * option error) :=
  '(ok, err) ← call_SetNX (client l) ctx (Options.Key (options l)) (value l)
                 (Options.TTL (options l));
  match err with
  | Some e => mret (false, Some (ErrorfW "failed to acquire lock: " e))
  | None => mret (ok, None)
  end.

(** [func (l *RedisLock) TryLock(ctx) (bool, error)]. *)
Definition TryLock (ctx : Ctx) (l : RedisLock Client)
    : M W (bool * option error) :=
  if Options.EnableTrace (options l) then
    lockWithTrace ctx "try_lock" (Options.Key (options l))
      (fun ctx => tryLock ctx l) true
  else tryLock ctx l.

(** The error [lock] ends with when the loop runs out. *)
Definition exhausted (maxRetries : Z) : error :=
  Errorf ("failed to acquire lock after " +:+ Sprintf_d maxRetries
          +:+ " retries").

(** The loop of [lock], [for i := 0; i < l.options.MaxRetries; i++]:
    [n] is the number of iterations still to run. *)
Fixpoint lock_loop (n : nat) (ctx : Ctx) (l : RedisLock Client)
    : M W (option error) :=
  match n with
  | O => mret (Some (exhausted (Options.MaxRetries (options l))))
  | S n' =>
      '(ok, err) ← TryLock ctx l;
      match err with
      | Some e => mret (Some e)
      | None =>
          if (ok : bool) then mret None
          else
            done ← select ctx (Options.RetryDelay (options l));
            match done with
            | Some e => mret (Some e)
            | None => lock_loop n' ctx l
            end
      end
  end.

(** [func (l *RedisLock) lock(ctx) error]. *)
Definition lock (ctx : Ctx) (l : RedisLock Client) : M W (option error) :=
  lock_loop (Z.to_nat (Options.MaxRetries (options l))) ctx l.

(** Runs a handler that assigns no captured variable under the wrapper. *)
Definition traced (ctx : Ctx) (operation key : string)
    (handler : Ctx -> M W (option error)) : M W (option error) :=
  '(_, err) ← lockWithTrace ctx operation key
                (fun ctx => err ← handler ctx; mret (tt, err)) true;
  mret err.

(** [func (l *RedisLock) Lock(ctx) error]. *)
Definition Lock (ctx : Ctx) (l : RedisLock Client) : M W (option error) :=
  if Options.EnableTrace (options l) then
    traced ctx "lock" (Options.Key (options l)) (fun ctx => lock ctx l)
  else lock ctx l.

(** [func (l *RedisLock) unlock(ctx) error]. *)
Definition unlock (ctx : Ctx) (l : RedisLock Client) : M W (option error) :=
  '(_, err) ← call_Eval (client l) ctx unlock_script
                [Options.Key (options l)] [ArgString (value l)];
  match err with
  | Some e => mret (Some (ErrorfW "failed to release lock: " e))
  | None => mret None
  end.

(** [func (l *RedisLock) Unlock(ctx) error]. *)
Definition Unlock (ctx : Ctx) (l : RedisLock Client) : M W (option error) :=
  if Options.EnableTrace (options l) then
    traced ctx "unlock" (Options.Key (options l)) (fun ctx => unlock ctx l)
  else unlock ctx l.

(** [func (l *RedisLock) extend(ctx, duration) error]. *)
Definition extend (ctx : Ctx) (l : RedisLock Client) (duration : Duration)
    : M W (option error) :=
  '(_, err) ← call_Eval (client l) ctx extend_script
                [Options.Key (options l)]
                [ArgString (value l);
                 ArgInt (int_of_float64 (Seconds duration))];
  match err with
  | Some e => mret (Some (ErrorfW "failed to extend lock: " e))
  | None => mret None
  end.

(** [func (l *RedisLock) Extend(ctx, duration) error]. *)
Definition Extend (ctx : Ctx) (l : RedisLock Client) (duration : Duration)
    : M W (option error) :=
  if Options.EnableTrace (options l) then
    traced ctx "extend" (Options.Key (options l))
      (fun ctx => extend ctx l duration)
  else extend ctx l duration.

(** The handle [l] with tracing switched on or off, all else equal. *)
Definition with_trace (enableTrace : bool) (l : RedisLock Client)
    : RedisLock Client :=
  mkRedisLock (client l)
    (Options.mk (Options.Key (options l)) (Options.TTL (options l))
       (Options.RetryDelay (options l)) (Options.MaxRetries (options l))
       enableTrace)
    (value l).

(** The world after one read of the clock.  The tracing wrapper reads the
    clock before and after its handler. *)
Definition after_Now (w : W) : W := (time_Now (Ctx := Ctx) w).2.

(** The world in which the body of a method of [l] starts, and, applied
    to what the body leaves, the world the method leaves. *)
Definition entry (l : RedisLock Client) (w : W) : W :=
  if Options.EnableTrace (options l) then after_Now w else w.

(** What [tryLock] makes of the response of [SetNX]. *)
Definition tryLock_result (res : bool * option error) : bool * option error :=
  match res with
  | (_, Some e) => (false, Some (ErrorfW "failed to acquire lock: " e))
  | (ok, None) => (ok, None)
  end.

(** The [SetNX] call of a handle, with its response. *)
Definition attempt (l : RedisLock Client) (res : bool * option error)
    : Event :=
  EvSetNX (Options.Key (options l)) (value l) (Options.TTL (options l)) res.

(** The shapes a run of the loop of [lock] can take, as the protocol
    events of [n] iterations and the error returned: rounds of a refused
    attempt and a completed wait, closed by running out of iterations, a
    store error, an acquisition, or a wait that [Done] interrupts. *)
Inductive lock_run (l : RedisLock Client)
    : nat -> list Event -> option error -> Prop :=
| run_exhausted :
    lock_run l 0 [] (Some (exhausted (Options.MaxRetries (options l))))
| run_store_error n b e :
    lock_run l (S n) [attempt l (b, Some e)]
      (Some (ErrorfW "failed to acquire lock: " e))
| run_acquired n :
    lock_run l (S n) [attempt l (true, None)] None
| run_canceled n e :
    lock_run l (S n)
      [attempt l (false, None);
       EvSelect (Options.RetryDelay (options l)) (Some e)]
      (Some e)
| run_retry n tr r :
    lock_run l n tr r ->
    lock_run l (S n)
      (attempt l (false, None)
       :: EvSelect (Options.RetryDelay (options l)) None :: tr)
      r.

End Methods.

(* ===================================================================== *)
(** ** A reference store                                                  *)
(* ===================================================================== *)

(** The store adapter and the Redis server behind it are collaborators of
    the package, reached only through [RedisClient].  [Ref] is one
    implementation of the interface, following the store contract of the
    specification (create-if-absent with a lease, and the [get], [del]
    and [expire] commands the two scripts call): string entries with a
    remaining lease, a clock, and a schedule of round-trip failures. *)
Module Ref.

(** A store entry: its value and what is left of its lease ([None]: the
    entry does not expire).  Expired entries are not kept. *)
Record Entry : Type := mkEntry {
  val : string;
  ttl : option Duration
}.

#[export] Instance Entry_eq_dec : EqDecision Entry.
Proof. solve_decision. Defined.

(** A [context.Context]: never done, or done with [err] once the clock
    reaches [at_]. *)
Inductive Context : Type :=
| Background
| DoneAt (at_ : Z) (err : error).

(** The world: the store, the clock (UnixNano), and for each coming round
    trip whether it fails ([Some e]: the call returns [e] and the store is
    not reached; an exhausted schedule means no more failures). *)
Record World : Type := mkWorld {
  db : gmap string Entry;
  clock : Z;
  faults : list (option error)
}.

(** Time passing: leases run down, and an entry whose lease is used up is
    gone. *)
Definition age (dt : Duration) (e : Entry) : option Entry :=
  match ttl e with
  | None => Some e
  | Some r => if dt <? r then Some (mkEntry (val e) (Some (r - dt))) else None
  end.

Definition elapse (dt : Duration) (m : gmap string Entry)
    : gmap string Entry :=
  omap (age dt) m.

Definition tick (dt : Duration) (w : World) : World :=
  mkWorld (elapse dt (db w)) (clock w + dt) (faults w).

(** One round trip: consult the failure schedule. *)
Definition round_trip (w : World) : option error * World :=
  match faults w with
  | [] => (None, w)
  | f :: fs => (f, mkWorld (db w) (clock w) fs)
  end.

(** Whether the entry at [key] carries the token [tok]. *)
Definition owned_by (m : gmap string Entry) (key tok : string) : bool :=
  bool_decide (val <$> m !! key = Some tok).

(** Whether the coming round trip fails, and with what. *)
Definition next_fault (w : World) : option error := (round_trip w).1.

(** The lease an expiration asks for; a non-positive expiration asks for
    none, as [SETNX] without options does. *)
Definition lease (d : Duration) : option Duration :=
  if d <=? 0 then None else Some d.

(** Lua values, and results of evaluation. *)
Inductive lua_value : Type :=
| VNil
| VBool (b : bool)
| VNum (z : Z)
| VStr (s : string).

#[export] Instance lua_value_eq_dec : EqDecision lua_value.
Proof. solve_decision. Defined.

Inductive outcome (A : Type) : Type :=
| Ok (a : A)
| Raise (msg : string).
Arguments Ok {A} _.
Arguments Raise {A} _.

(** [t[i]] for a Lua table built from a list: [nil] out of range. *)
Definition index (l : list string) (i : nat) : lua_value :=
  match i with
  | O => VNil
  | S j => match l !! j with Some s => VStr s | None => VNil end
  end.

Definition atom_value (keys argv : list string) (a : Lua.atom) : lua_value :=
  match a with
  | Lua.KEYS i => index keys i
  | Lua.ARGV i => index argv i
  end.

(** [redis.call] takes strings and numbers as command arguments. *)
Definition call_arg (v : lua_value) : option string :=
  match v with
  | VStr s => Some s
  | VNum z => Some (Sprintf_d z)
  | VNil | VBool _ => None
  end.

(** Reading a decimal integer argument. *)
Definition parse_int (s : string) : option Z :=
  Z.of_int <$> NilZero.int_of_string s.

(** Modelled from the spec: the server that runs the scripts is not part
    of the repository.  The three commands the scripts call, as the
    compare-then-delete and compare-then-reset-expiration operations of
    the store contract need them:
    - [GET k]: the value, or [false] in Lua when there is no entry.
    - [DEL k]: removes the entry; the number of entries removed.
    - [EXPIRE k secs]: [0] when there is no entry; otherwise [1], and the
      lease becomes [secs] seconds, except that a non-positive [secs]
      deletes the entry. *)
Definition redis_call (cmd : string) (args : list string)
    (m : gmap string Entry) : outcome lua_value * gmap string Entry :=
  if String.eqb cmd "get" then
    match args with
    | [k] =>
        (Ok (match m !! k with
             | Some e => VStr (val e)
             | None => VBool false
             end), m)
    | _ => (Raise "ERR wrong number of arguments for 'get' command", m)
    end
  else if String.eqb cmd "del" then
    match args with
    | [k] =>
        match m !! k with
        | Some _ => (Ok (VNum 1), delete k m)
        | None => (Ok (VNum 0), m)
        end
    | _ => (Raise "ERR wrong number of arguments for 'del' command", m)
    end
  else if String.eqb cmd "expire" then
    match args with
    | [k; secs] =>
        match parse_int secs with
        | None => (Raise "ERR value is not an integer or out of range", m)
        | Some n =>
            match m !! k with
            | None => (Ok (VNum 0), m)
            | Some e =>
                if n <=? 0 then (Ok (VNum 1), delete k m)
                else (Ok (VNum 1), <[k := mkEntry (val e) (Some (n * Second))]> m)
            end
        end
    | _ => (Raise "ERR wrong number of arguments for 'expire' command", m)
    end
  else (Raise "ERR unknown command", m).

Fixpoint eval_expr (keys argv : list string) (e : Lua.expr)
    (m : gmap string Entry) : outcome lua_value * gmap string Entry :=
  match e with
  | Lua.Atom a => (Ok (atom_value keys argv a), m)
  | Lua.Num z => (Ok (VNum z), m)
  | Lua.Call cmd args =>
      match mapM call_arg (atom_value keys argv <$> args) with
      | Some ss => redis_call cmd ss m
      | None =>
          (Raise "Lua redis lib command arguments must be strings or integers",
           m)
      end
  | Lua.Eq a b =>
      match eval_expr keys argv a m with
      | (Ok va, m1) =>
          match eval_expr keys argv b m1 with
          | (Ok vb, m2) => (Ok (VBool (bool_decide (va = vb))), m2)
          | (Raise msg, m2) => (Raise msg, m2)
          end
      | (Raise msg, m1) => (Raise msg, m1)
      end
  end.

(** In a condition only [nil] and [false] count as false. *)
Definition truthy (v : lua_value) : bool :=
  match v with
  | VNil | VBool false => false
  | _ => true
  end.

Fixpoint exec (keys argv : list string) (s : Lua.stmt)
    (m : gmap string Entry) : outcome lua_value * gmap string Entry :=
  match s with
  | Lua.Return e => eval_expr keys argv e m
  | Lua.If c t e =>
      match eval_expr keys argv c m with
      | (Ok v, m1) =>
          if truthy v then exec keys argv t m1 else exec keys argv e m1
      | (Raise msg, m1) => (Raise msg, m1)
      end
  end.

(** What a script's return value becomes as a reply. *)
Definition to_reply (v : lua_value) : Reply :=
  match v with
  | VNum z => ReplyInt z
  | VStr s => ReplyString s
  | VBool true => ReplyInt 1
  | VBool false | VNil => ReplyNil
  end.

(** How the client writes an argument on the wire. *)
Definition wire (a : Arg) : string :=
  match a with
  | ArgString s => s
  | ArgInt n => Sprintf_d n
  end.

(** Modelled from the spec: the store adapter behind [RedisClient] is not
    part of the repository.  [SetNX] is the contract's create-if-absent:
    one round trip that creates the entry with its lease when the key has
    none, and says whether it did. *)
Definition ref_SetNX (_ : unit) (_ : Context) (key val : string)
    (expiration : Duration) (w : World) : (bool * option error) * World :=
  let '(f, w) := round_trip w in
  match f with
  | Some e => ((false, Some e), w)
  | None =>
      match db w !! key with
      | Some _ => ((false, None), w)
      | None =>
          ((true, None),
           mkWorld (<[key := mkEntry val (lease expiration)]> (db w))
             (clock w) (faults w))
      end
  end.

(** [Eval]: one round trip that runs the script on the store, with the
    arguments as the client writes them. *)
Definition ref_Eval (_ : unit) (_ : Context) (script : Lua.stmt)
    (keys : list string) (args : list Arg) (w : World)
    : (Reply * option error) * World :=
  let '(f, w) := round_trip w in
  match f with
  | Some e => ((ReplyNil, Some e), w)
  | None =>
      let '(r, m) := exec keys (wire <$> args) script (db w) in
      let w := mkWorld m (clock w) (faults w) in
      match r with
      | Ok v => ((to_reply v, None), w)
      | Raise msg => ((ReplyNil, Some (External msg)), w)
      end
  end.

Definition ref_Del (_ : unit) (_ : Context) (keys : list string) (w : World)
    : option error * World :=
  let '(f, w) := round_trip w in
  match f with
  | Some e => (Some e, w)
  | None =>
      (None, mkWorld (foldr delete (db w) keys) (clock w) (faults w))
  end.

Definition ref_Expire (_ : unit) (_ : Context) (key : string)
    (expiration : Duration) (w : World) : option error * World :=
  let '(f, w) := round_trip w in
  match f with
  | Some e => (Some e, w)
  | None =>
      let m :=
        match db w !! key with
        | None => db w
        | Some e =>
            if expiration <=? 0 then delete key (db w)
            else <[key := mkEntry (val e) (Some expiration)]> (db w)
        end in
      (None, mkWorld m (clock w) (faults w))
  end.

#[global] Instance ref_client : RedisClient unit Context World := {
  SetNX := ref_SetNX;
  Del := ref_Del;
  Eval := ref_Eval;
  Expire := ref_Expire
}.

(** The clock is read without moving it: successive reads may agree. *)
Definition ref_Now (w : World) : Z * World := (clock w, w).

(** The race of [select]: [Done] wins when the context is done before the
    timer would fire; otherwise the full delay passes. *)
Definition ref_select (ctx : Context) (d : Duration) (w : World)
    : option error * World :=
  match ctx with
  | Background => (None, tick (Z.max 0 d) w)
  | DoneAt t e =>
      if (t <=? clock w) || (t <? clock w + d)
      then (Some e, tick (Z.max 0 (t - clock w)) w)
      else (None, tick (Z.max 0 d) w)
  end.

#[global] Instance ref_runtime : Runtime Context World := {
  time_Now := ref_Now;
  select_Done_After := ref_select
}.

End Ref.

(** Calls of [TryLock] by several handles, one after the other: the order
    in which the store serves concurrent callers.  Each call has its own
    context and handle. *)
Fixpoint TryLock_each (calls : list (Ref.Context * RedisLock unit))
    : M Ref.World (list (bool * option error)) :=
  match calls with
  | [] => mret []
  | call :: rest =>
      r ← TryLock call.1 call.2;
      rs ← TryLock_each rest;
      mret (r :: rs)
  end.

(* ===================================================================== *)
(** ** Scenarios                                                          *)
(* ===================================================================== *)

(** Concrete handles and worlds on the reference store, used to run the
    methods. *)
Module Scenario.

Definition res1_options (maxRetries : Z) (enableTrace : bool) : Options.t :=
  Options.mk "res1" (30 * Second) (100 * Millisecond) maxRetries enableTrace.

(** Two handles for the key [res1], one attempt each, no tracing. *)
Definition handle_A : RedisLock unit :=
  mkRedisLock tt (res1_options 1 false) "tokA".

Definition handle_B : RedisLock unit :=
  mkRedisLock tt (res1_options 1 false) "tokB".

(** A handle that tries twice, with tracing. *)
Definition handle_A2 : RedisLock unit :=
  mkRedisLock tt (res1_options 2 true) "tokA".

(** A handle whose options allow no attempt at all. *)
Definition handle_A0 : RedisLock unit :=
  mkRedisLock tt (res1_options 0 true) "tokA".

(** An empty store. *)
Definition free : Ref.World := Ref.mkWorld ∅ 0 [].

(** [res1] is held by [handle_B], with 30 seconds of lease left. *)
Definition held_by_B : Ref.World :=
  Ref.mkWorld {[ "res1" := Ref.mkEntry "tokB" (Some (30 * Second)) ]} 0 [].

(** [res1] is held by [handle_B]; the second round trip will fail. *)
Definition second_call_fails : Ref.World :=
  Ref.mkWorld {[ "res1" := Ref.mkEntry "tokB" (Some (30 * Second)) ]} 0
    [None; Some (External "connection reset")].

(** A context canceled 150 ms after the clock's origin. *)
Definition canceled_at_150ms : Ref.Context :=
  Ref.DoneAt (150 * Millisecond) Canceled.

End Scenario.

(* ===================================================================== *)
(** ** Counting observability effects                                     *)
(* ===================================================================== *)

Definition is_SpanStart (e : Event) : bool :=
  match e with EvObs (SpanStart _ _ _) => true | _ => false end.

Definition is_SpanEnd (e : Event) : bool :=
  match e with EvObs SpanEnd => true | _ => false end.

Definition is_Log (e : Event) : bool :=
  match e with
  | EvObs (LogError _ _ _ _ _) | EvObs (LogInfo _ _ _ _) => true
  | _ => false
  end.

(** Spans started, spans ended and log entries written in a trace. *)
Definition span_starts (tr : list Event) : nat :=
  length (List.filter is_SpanStart tr).

Definition span_ends (tr : list Event) : nat :=
  length (List.filter is_SpanEnd tr).

Definition logs (tr : list Event) : nat :=
  length (List.filter is_Log tr).

(** What [unlock] and [extend] make of the response of [Eval]. *)
Definition eval_result (prefix : string) (res : Reply * option error)
    : option error :=
  match res.2 with
  | Some e => Some (ErrorfW prefix e)
  | None => None
  end.

(** On the reference store: the world a round trip of [w] leaves when it
    makes the store [m], if it does not fail. *)
Definition store_after (w : Ref.World) (m : gmap string Ref.Entry)
    : Ref.World :=
  Ref.mkWorld
    (match Ref.next_fault w with Some _ => Ref.db w | None => m end)
    (Ref.clock w) (tail (Ref.faults w)).

(** No round trip is scheduled to fail. *)
Definition no_faults (w : Ref.World) : Prop :=
  Forall (fun f => f = None) (Ref.faults w).

(** More worlds on the reference store. *)
Module Scenario2.

(** [res1] is held by [handle_B] with 50 ms of lease left: less than the
    retry delay of the handles of [Scenario]. *)
Definition expiring_soon : Ref.World :=
  Ref.mkWorld {[ "res1" := Ref.mkEntry "tokB" (Some (50 * Millisecond)) ]} 0
    [].

(** [res1] is held by [handle_B] and another key by someone else. *)
Definition two_keys : Ref.World :=
  Ref.mkWorld
    (<[ "res2" := Ref.mkEntry "tokC" None ]>
       {[ "res1" := Ref.mkEntry "tokB" (Some (30 * Second)) ]}) 0 [].

(** A handle for [res1] that carries the token of [handle_B]: what a
    second process gets when its clock reads the same. *)
Definition handle_B' : RedisLock unit :=
  mkRedisLock tt (Scenario.res1_options 3 true) "tokB".

(** An enabled configuration that leaves retries and delay at zero. *)
Definition config_5s : Config.t :=
  Config.mk true (5 * Second) 0 0 true.

End Scenario2.

(* ===================================================================== *)
(** ** Running computations                                               *)
(* ===================================================================== *)

Section Running.
Context {W : Type}.

Lemma result_bind {A B} (m : M W A) (f : A -> M W B) w :
  result ((m ≫= f) w) = result (f (result (m w)) (world (m w))).
Proof.
  unfold mbind, M_bind, result, world.
  destruct (m w) as [[a w1] t1]; simpl.
  destruct (f a w1) as [[b w2] t2]; reflexivity.
Qed.

Lemma world_bind {A B} (m : M W A) (f : A -> M W B) w :
  world ((m ≫= f) w) = world (f (result (m w)) (world (m w))).
Proof.
  unfold mbind, M_bind, result, world.
  destruct (m w) as [[a w1] t1]; simpl.
  destruct (f a w1) as [[b w2] t2]; reflexivity.
Qed.

Lemma trace_bind {A B} (m : M W A) (f : A -> M W B) w :
  trace ((m ≫= f) w) = trace (m w) ++ trace (f (result (m w)) (world (m w))).
Proof.
  unfold mbind, M_bind, result, world, trace.
  destruct (m w) as [[a w1] t1]; simpl.
  destruct (f a w1) as [[b w2] t2]; reflexivity.
Qed.

Lemma result_ret {A} (a : A) (w : W) : result (mret (M := M W) a w) = a.
Proof. reflexivity. Qed.

Lemma world_ret {A} (a : A) (w : W) : world (mret (M := M W) a w) = w.
Proof. reflexivity. Qed.

Lemma trace_ret {A} (a : A) (w : W) : trace (mret (M := M W) a w) = [].
Proof. reflexivity. Qed.

End Running.

Lemma protocol_app (t1 t2 : list Event) :
  protocol (t1 ++ t2) = protocol t1 ++ protocol t2.
Proof. apply List.filter_app. Qed.

(** Counting looks only at protocol events. *)
Lemma attempts_protocol (tr : list Event) :
  attempts (protocol tr) = attempts tr.
Proof.
  unfold attempts, protocol.
  induction tr as [|ev tr IH]; [reflexivity|].
  destruct ev; simpl; auto.
Qed.

Lemma waits_protocol (tr : list Event) : waits (protocol tr) = waits tr.
Proof.
  unfold waits, protocol.
  induction tr as [|ev tr IH]; [reflexivity|].
  destruct ev; simpl; auto.
Qed.

(* ===================================================================== *)
(** ** What the methods do, for any client and runtime                    *)
(* ===================================================================== *)

Section MethodFacts.
Context {Client Ctx W : Type}.
Context `{!RedisClient Client Ctx W, !Runtime Ctx W}.

(** The wrapper is a decorator: same result as the handler, no protocol
    effect of its own. *)
Lemma lockWithTrace_decorates {A} (ctx : Ctx) (operation key : string)
    (handler : Ctx -> M W (A * option error)) (enableTrace : bool) (w : W) :
  let r := handler ctx (after_Now w) in
  result (lockWithTrace ctx operation key handler enableTrace w) = result r
  ∧ world (lockWithTrace ctx operation key handler enableTrace w)
    = after_Now (world r)
  ∧ protocol (trace (lockWithTrace ctx operation key handler enableTrace w))
    = protocol (trace r).
Proof.
  unfold lockWithTrace, Since, Now, observe, after_Now.
  unfold mbind, M_bind, mret, M_ret, result, world, trace.
  destruct (time_Now w) as [t w1]; simpl.
  destruct enableTrace; simpl;
    destruct (handler ctx w1) as [[[a err] w2] tr]; simpl;
    destruct (time_Now w2) as [t2 w3]; simpl;
    destruct err; simpl;
    rewrite ?protocol_app; simpl; rewrite ?app_nil_r; auto.
Qed.

Lemma traced_decorates (ctx : Ctx) (operation key : string)
    (handler : Ctx -> M W (option error)) (w : W) :
  let r := handler ctx (after_Now w) in
  result (traced ctx operation key handler w) = result r
  ∧ world (traced ctx operation key handler w) = after_Now (world r)
  ∧ protocol (trace (traced ctx operation key handler w))
    = protocol (trace r).
Proof.
  unfold traced.
  pose proof (lockWithTrace_decorates ctx operation key
    (fun ctx => err ← handler ctx; mret (tt, err)) true w) as H.
  cbv beta zeta in *.
  rewrite result_bind, world_bind, trace_bind in H.
  rewrite result_bind, world_bind, trace_bind, protocol_app.
  destruct H as (Hr & Hw & Ht).
  rewrite result_ret in Hr. rewrite world_ret in Hw.
  rewrite trace_ret, app_nil_r in Ht.
  rewrite Hr, Hw, Ht.
  rewrite result_ret, world_ret, trace_ret, app_nil_r. auto.
Qed.

Lemma tryLock_run (ctx : Ctx) (l : RedisLock Client) (w : W) :
  let sn := SetNX (client l) ctx (Options.Key (options l)) (value l)
              (Options.TTL (options l)) w in
  result (tryLock ctx l w) = tryLock_result sn.1
  ∧ world (tryLock ctx l w) = sn.2
  ∧ trace (tryLock ctx l w) = [attempt l sn.1].
Proof.
  unfold tryLock, call_SetNX, attempt, tryLock_result.
  unfold mbind, M_bind, mret, M_ret, result, world, trace.
  destruct (SetNX _ _ _ _ _ _) as [[ok [e|]] w1]; simpl; auto.
Qed.

(** [TryLock] is one [SetNX] round trip with the handle's key, token and
    lease, and relays its response. *)
Lemma TryLock_run (ctx : Ctx) (l : RedisLock Client) (w : W) :
  let sn := SetNX (client l) ctx (Options.Key (options l)) (value l)
              (Options.TTL (options l)) (entry l w) in
  result (TryLock ctx l w) = tryLock_result sn.1
  ∧ world (TryLock ctx l w) = entry l sn.2
  ∧ protocol (trace (TryLock ctx l w)) = [attempt l sn.1].
Proof.
  unfold TryLock, entry.
  destruct (Options.EnableTrace (options l)).
  - pose proof (lockWithTrace_decorates ctx "try_lock"
      (Options.Key (options l)) (fun ctx => tryLock ctx l) true w) as H.
    pose proof (tryLock_run ctx l (after_Now w)) as H'.
    cbv zeta in *.
    destruct H as (-> & -> & ->). destruct H' as (-> & -> & ->).
    auto.
  - pose proof (tryLock_run ctx l w) as H'. cbv zeta in *.
    destruct H' as (-> & -> & ->). auto.
Qed.

(** So each call of [TryLock] counts as one attempt. *)
Lemma TryLock_is_one_attempt (ctx : Ctx) (l : RedisLock Client) (w : W) :
  attempts (trace (TryLock ctx l w)) = 1%nat.
Proof.
  destruct (TryLock_run ctx l w) as (_ & _ & Ht). cbv zeta in Ht.
  rewrite <- attempts_protocol, Ht. reflexivity.
Qed.

Lemma select_run (ctx : Ctx) (d : Duration) (w : W) :
  result (select ctx d w) = (select_Done_After ctx d w).1
  ∧ world (select ctx d w) = (select_Done_After ctx d w).2
  ∧ trace (select ctx d w) = [EvSelect d (select_Done_After ctx d w).1].
Proof.
  unfold select, result, world, trace.
  destruct (select_Done_After ctx d w) as [r w1]; auto.
Qed.

Lemma lock_loop_run (n : nat) (ctx : Ctx) (l : RedisLock Client) (w : W) :
  lock_run l n (protocol (trace (lock_loop n ctx l w)))
    (result (lock_loop n ctx l w)).
Proof.
  revert w. induction n as [|n IH]; intros w; simpl.
  { constructor. }
  rewrite trace_bind, result_bind, protocol_app.
  destruct (TryLock_run ctx l w) as (Hr & _ & Ht). cbv zeta in *.
  rewrite Hr, Ht. clear Hr Ht.
  destruct (SetNX _ _ _ _ _ _).1 as [ok [e|]]; simpl.
  { constructor. }
  destruct ok.
  { constructor. }
  rewrite trace_bind, result_bind, protocol_app.
  match goal with |- context [select ctx ?d ?w1] =>
    destruct (select_run ctx d w1) as (Hr & _ & Ht) end.
  rewrite Hr, Ht. clear Hr Ht.
  destruct (select_Done_After _ _ _).1 as [e|]; simpl.
  { constructor. }
  constructor. apply IH.
Qed.

Lemma Lock_run (ctx : Ctx) (l : RedisLock Client) (w : W) :
  lock_run l (Z.to_nat (Options.MaxRetries (options l)))
    (protocol (trace (Lock ctx l w))) (result (Lock ctx l w)).
Proof.
  unfold Lock. destruct (Options.EnableTrace (options l)).
  - destruct (traced_decorates ctx "lock" (Options.Key (options l))
      (fun ctx => lock ctx l) w) as (-> & _ & ->).
    apply lock_loop_run.
  - apply lock_loop_run.
Qed.

(** A wait that [Done] interrupts ends the run, with the context's
    error. *)
Lemma lock_run_canceled (l : RedisLock Client) n tr r pre d e post :
  lock_run l n tr r ->
  tr = pre ++ EvSelect d (Some e) :: post ->
  r = Some e ∧ post = [].
Proof.
  intros Hrun. revert pre.
  induction Hrun as [| n b e' | n | n e' | n tr r Hrun IH]; intros pre Heq.
  - destruct pre; discriminate.
  - destruct pre as [|? [|? ?]]; discriminate.
  - destruct pre as [|? [|? ?]]; discriminate.
  - destruct pre as [|? [|? [|? ?]]]; try discriminate.
    simpl in Heq. inversion Heq; subst. auto.
  - destruct pre as [|? [|? pre]]; try discriminate.
    simpl in Heq. inversion Heq; subst. eapply IH; reflexivity.
Qed.

(** An attempt that comes back with a store error ends the run, with that
    error wrapped. *)
Lemma lock_run_store_error (l : RedisLock Client) n tr r pre key v t b e
    post :
  lock_run l n tr r ->
  tr = pre ++ EvSetNX key v t (b, Some e) :: post ->
  r = Some (ErrorfW "failed to acquire lock: " e) ∧ post = [].
Proof.
  intros Hrun. revert pre.
  induction Hrun as [| n b' e' | n | n e' | n tr r Hrun IH]; intros pre Heq.
  - destruct pre; discriminate.
  - destruct pre as [|? [|? ?]]; try discriminate.
    simpl in Heq. inversion Heq; subst. auto.
  - destruct pre as [|? [|? ?]]; discriminate.
  - destruct pre as [|? [|? [|? ?]]]; discriminate.
  - destruct pre as [|? [|? pre]]; try discriminate.
    simpl in Heq. inversion Heq; subst. eapply IH; reflexivity.
Qed.

(** An attempt that acquires ends the run, with no error. *)
Lemma lock_run_acquired (l : RedisLock Client) n tr r pre key v t post :
  lock_run l n tr r ->
  tr = pre ++ EvSetNX key v t (true, None) :: post ->
  r = None ∧ post = [].
Proof.
  intros Hrun. revert pre.
  induction Hrun as [| n b' e' | n | n e' | n tr r Hrun IH]; intros pre Heq.
  - destruct pre; discriminate.
  - destruct pre as [|? [|? ?]]; discriminate.
  - destruct pre as [|? [|? ?]]; try discriminate.
    simpl in Heq. inversion Heq; subst. auto.
  - destruct pre as [|? [|? [|? ?]]]; discriminate.
  - destruct pre as [|? [|? pre]]; try discriminate.
    simpl in Heq. inversion Heq; subst. eapply IH; reflexivity.
Qed.

(** With tracing on or off the loop of [lock] has the same result, leaves
    the same world and performs the same protocol effects, when reading
    the clock does not change the world. *)
Lemma lock_loop_with_trace (n : nat) (ctx : Ctx) (l : RedisLock Client)
    (w : W) :
  (∀ w' : W, after_Now (Ctx := Ctx) w' = w') ->
  result (lock_loop n ctx (with_trace true l) w)
  = result (lock_loop n ctx (with_trace false l) w)
  ∧ world (lock_loop n ctx (with_trace true l) w)
    = world (lock_loop n ctx (with_trace false l) w)
  ∧ protocol (trace (lock_loop n ctx (with_trace true l) w))
    = protocol (trace (lock_loop n ctx (with_trace false l) w)).
Proof.
  intros Hnow. revert w. induction n as [|n IH]; intros w; simpl.
  { auto. }
  rewrite !trace_bind, !result_bind, !world_bind, !protocol_app.
  destruct (TryLock_run ctx (with_trace true l) w) as (Hr1 & Hw1 & Ht1).
  destruct (TryLock_run ctx (with_trace false l) w) as (Hr2 & Hw2 & Ht2).
  cbv zeta in *. unfold entry in *. simpl in *. rewrite !Hnow in *.
  rewrite Hr1, Hw1, Ht1, Hr2, Hw2, Ht2. clear Hr1 Hw1 Ht1 Hr2 Hw2 Ht2.
  unfold attempt. simpl.
  destruct (SetNX _ _ _ _ _ _) as [[ok [e|]] w1]; simpl; auto.
  destruct ok; simpl; auto.
  rewrite !trace_bind, !result_bind, !world_bind, !protocol_app.
  destruct (select ctx (Options.RetryDelay (options l)) w1)
    as [[[e|] w2] t2]; simpl; auto.
  change (world (None, w2, t2)) with w2.
  destruct (IH w2) as (-> & -> & ->). auto.
Qed.

Lemma Forall_protocol (P : Event -> Prop) (tr : list Event) :
  Forall P tr -> Forall P (protocol tr).
Proof.
  unfold protocol. induction 1 as [|ev tr Hev Htr IH]; simpl; [constructor|].
  destruct (is_protocol ev); [constructor|]; auto.
Qed.

(** When every attempt is refused and every wait completes, all [n]
    iterations run, each with one attempt and one wait. *)
Lemma lock_run_refused (l : RedisLock Client) n tr r :
  lock_run l n tr r ->
  Forall refused tr ->
  Forall wait_completed tr ->
  attempts tr = n ∧ waits tr = n
  ∧ r = Some (exhausted (Options.MaxRetries (options l))).
Proof.
  intros Hrun.
  induction Hrun as [| n b e | n | n e | n tr r Hrun IH]; intros Hs Hw.
  - auto.
  - inversion Hs as [|? ? H1 _]; subst. discriminate H1.
  - inversion Hs as [|? ? H1 _]; subst. discriminate H1.
  - inversion Hw as [|? ? _ H2]; subst.
    inversion H2 as [|? ? H3 _]; subst. discriminate H3.
  - inversion Hs as [|? ? _ Hs']; subst. inversion Hs' as [|? ? _ Hs'']; subst.
    inversion Hw as [|? ? _ Hw']; subst. inversion Hw' as [|? ? _ Hw'']; subst.
    destruct (IH Hs'' Hw'') as (Ha & Hb & Hr).
    unfold attempts, waits in *. simpl. rewrite Ha, Hb. auto.
Qed.

End MethodFacts.

(* ===================================================================== *)
(** ** Decimal formatting                                                 *)
(* ===================================================================== *)

Lemma to_int_not_nil (z : Z) :
  Z.to_int z ≠ Decimal.Pos Decimal.Nil ∧ Z.to_int z ≠ Decimal.Neg Decimal.Nil.
Proof.
  destruct z as [|p|p]; simpl; split; try discriminate;
    intros H; inversion H as [H'];
    exact (DecimalPos.Unsigned.to_uint_nonnil p H').
Qed.

(** Reading back what [%d] printed gives the number printed. *)
Lemma parse_int_Sprintf_d (z : Z) : Ref.parse_int (Sprintf_d z) = Some z.
Proof.
  unfold Ref.parse_int, Sprintf_d.
  destruct (to_int_not_nil z) as [Hp Hn].
  rewrite (NilZero.isi _ Hp Hn). simpl. f_equal. apply DecimalZ.of_to.
Qed.

Lemma Sprintf_d_inj (a b : Z) : Sprintf_d a = Sprintf_d b -> a = b.
Proof.
  intros H.
  pose proof (parse_int_Sprintf_d a) as Ha.
  rewrite H, parse_int_Sprintf_d in Ha. congruence.
Qed.

(* ===================================================================== *)
(** ** The scripts on the reference store                                 *)
(* ===================================================================== *)

Section RefFacts.
Import Ref.

Lemma exec_unlock_script (key tok : string) (m : gmap string Entry) :
  exec [key] [tok] unlock_script m =
  if owned_by m key tok then (Ok (VNum 1), delete key m) else (Ok (VNum 0), m).
Proof.
  unfold owned_by, unlock_script. simpl.
  destruct (m !! key) as [e|] eqn:Hk; simpl.
  - repeat case_bool_decide; simplify_eq; try congruence.
    unfold redis_call; simpl. rewrite Hk. reflexivity.
  - repeat case_bool_decide; simplify_eq; reflexivity.
Qed.

Lemma exec_extend_script (key tok : string) (n : Z) (m : gmap string Entry) :
  exec [key] [tok; Sprintf_d n] extend_script m =
  if owned_by m key tok then
    (Ok (VNum 1),
     if n <=? 0 then delete key m
     else <[key := mkEntry tok (Some (n * Second))]> m)
  else (Ok (VNum 0), m).
Proof.
  unfold owned_by, extend_script. simpl.
  destruct (m !! key) as [e|] eqn:Hk; simpl.
  - repeat case_bool_decide; simplify_eq; try congruence.
    unfold redis_call; simpl.
    rewrite parse_int_Sprintf_d, Hk. destruct (n <=? 0); reflexivity.
  - repeat case_bool_decide; simplify_eq; reflexivity.
Qed.


(** Reading the reference clock leaves the world as it is, so the tracing
    wrapper does not show in the world. *)
Lemma ref_entry (l : RedisLock unit) (w : World) : entry l w = w.
Proof. unfold entry. destruct (Options.EnableTrace (options l)); reflexivity. Qed.

Lemma Unlock_untraced (ctx : Context) (l : RedisLock unit) (w : World) :
  result (Unlock ctx l w) = result (unlock ctx l w)
  ∧ world (Unlock ctx l w) = world (unlock ctx l w).
Proof.
  unfold Unlock. destruct (Options.EnableTrace (options l)); [|auto].
  destruct (traced_decorates ctx "unlock" (Options.Key (options l))
    (fun ctx => unlock ctx l) w) as (-> & -> & _). auto.
Qed.

Lemma Extend_untraced (ctx : Context) (l : RedisLock unit) (d : Duration)
    (w : World) :
  result (Extend ctx l d w) = result (extend ctx l d w)
  ∧ world (Extend ctx l d w) = world (extend ctx l d w).
Proof.
  unfold Extend. destruct (Options.EnableTrace (options l)); [|auto].
  destruct (traced_decorates ctx "extend" (Options.Key (options l))
    (fun ctx => extend ctx l d) w) as (-> & -> & _). auto.
Qed.

Lemma unlock_on_store (ctx : Context) (l : RedisLock unit) (w : World) :
  let key := Options.Key (options l) in
  match next_fault w with
  | Some e =>
      result (unlock ctx l w) = Some (ErrorfW "failed to release lock: " e)
      ∧ db (world (unlock ctx l w)) = db w
  | None =>
      result (unlock ctx l w) = None
      ∧ db (world (unlock ctx l w)) =
        if owned_by (db w) key (value l) then delete key (db w) else db w
  end.
Proof.
  unfold unlock, call_Eval, next_fault, round_trip.
  unfold mbind, M_bind, mret, M_ret, result, world; cbn -[exec owned_by].
  unfold ref_Eval, round_trip.
  destruct w as [m c [|[e|] fs]]; cbn -[exec owned_by]; auto;
    rewrite exec_unlock_script; destruct (owned_by _ _ _); simpl; auto.
Qed.

Lemma extend_on_store (ctx : Context) (l : RedisLock unit) (d : Duration)
    (w : World) :
  let key := Options.Key (options l) in
  let secs := int_of_float64 (Seconds d) in
  match next_fault w with
  | Some e =>
      result (extend ctx l d w) = Some (ErrorfW "failed to extend lock: " e)
      ∧ db (world (extend ctx l d w)) = db w
  | None =>
      result (extend ctx l d w) = None
      ∧ db (world (extend ctx l d w)) =
        if owned_by (db w) key (value l) then
          if secs <=? 0 then delete key (db w)
          else <[key := mkEntry (value l) (Some (secs * Second))]> (db w)
        else db w
  end.
Proof.
  unfold extend, call_Eval, next_fault, round_trip.
  unfold mbind, M_bind, mret, M_ret, result, world; cbn -[exec owned_by].
  unfold ref_Eval, round_trip.
  destruct w as [m c [|[e|] fs]]; cbn -[exec owned_by Seconds int_of_float64]; auto;
    rewrite exec_extend_script; destruct (owned_by _ _ _); simpl; auto.
Qed.

Lemma TryLock_on_store (ctx : Context) (l : RedisLock unit) (w : World) :
  let key := Options.Key (options l) in
  let r := TryLock ctx l w in
  match next_fault w with
  | Some e =>
      result r = (false, Some (ErrorfW "failed to acquire lock: " e))
      ∧ db (world r) = db w
  | None =>
      result r = (bool_decide (db w !! key = None), None)
      ∧ db (world r) =
        (if bool_decide (db w !! key = None)
         then <[key := mkEntry (value l) (lease (Options.TTL (options l)))]>
                (db w)
         else db w)
  end
  ∧ faults (world r) = tail (faults w)
  ∧ clock (world r) = clock w.
Proof.
  destruct (TryLock_run ctx l w) as (Hr & Hw & _). cbv zeta in *.
  rewrite Hr, Hw, !ref_entry. clear Hr Hw.
  unfold next_fault, round_trip. simpl. unfold ref_SetNX, round_trip.
  destruct w as [m c [|[e|] fs]]; simpl; auto;
    destruct (m !! Options.Key (options l)) eqn:Hk; simpl;
    try case_bool_decide; simplify_eq; auto.
Qed.

End RefFacts.

(* ===================================================================== *)
(** ** Properties of the handle, for any client and runtime               *)
(* ===================================================================== *)

Section LockProperties.
Context {Client Ctx W : Type}.
Context `{!RedisClient Client Ctx W, !Runtime Ctx W}.

(** C3 (as the code has it).  With [MaxRetries = k], [k >= 1], when every
    attempt of a run of [Lock] is refused (the key is held by another
    owner each time) and every wait runs its full delay, the run makes
    exactly [k] attempts and exactly [k] waits, one after each attempt
    and so also after the last, and returns the exhaustion error, whose
    message names [k]. *)
Theorem Lock_retry_bound (ctx : Ctx) (l : RedisLock Client) (w : W) (k : Z) :
  1 <= k ->
  Options.MaxRetries (options l) = k ->
  Forall refused (trace (Lock ctx l w)) ->
  Forall wait_completed (trace (Lock ctx l w)) ->
  Z.of_nat (attempts (trace (Lock ctx l w))) = k
  ∧ Z.of_nat (waits (trace (Lock ctx l w))) = k
  ∧ result (Lock ctx l w) = Some (exhausted k)
  ∧ Error (exhausted k)
    = "failed to acquire lock after " +:+ Sprintf_d k +:+ " retries".
Proof.
  intros Hk Hmax Hs Hw.
  pose proof (Lock_run ctx l w) as Hrun.
  apply lock_run_refused in Hrun; auto using Forall_protocol.
  rewrite attempts_protocol, waits_protocol, Hmax in Hrun.
  destruct Hrun as (-> & -> & ->).
  rewrite Z2Nat.id by lia. auto.
Qed.

(** C5.  In every run of [Lock]: if a wait between attempts ends because
    the context is done ([Done] wins the [select]; [e] is [ctx.Err()]),
    [Lock] returns [e], and after that wait the run makes no further
    attempt and starts no further wait.  That the interrupted wait does
    not last its full delay is what [select] means; on the reference
    runtime see [ref_select_interrupted]. *)
Theorem Lock_cancellation_aborts (ctx : Ctx) (l : RedisLock Client) (w : W)
    (pre post : list Event) (d : Duration) (e : error) :
  trace (Lock ctx l w) = pre ++ EvSelect d (Some e) :: post ->
  result (Lock ctx l w) = Some e
  ∧ attempts post = 0%nat ∧ waits post = 0%nat.
Proof.
  intros Htr.
  pose proof (Lock_run ctx l w) as Hrun.
  rewrite Htr, protocol_app in Hrun. simpl in Hrun.
  eapply lock_run_canceled in Hrun; [|reflexivity].
  destruct Hrun as [-> Hpost].
  rewrite <- (attempts_protocol post), <- (waits_protocol post).
  fold (protocol post) in Hpost. rewrite Hpost. auto.
Qed.

(** C6.  In every run of [Lock]: if an attempt comes back from the store
    with an error [e], [Lock] returns the error of that attempt ([e]
    wrapped by [tryLock]), and after that attempt the run makes no
    further attempt and no wait. *)
Theorem Lock_store_error_aborts (ctx : Ctx) (l : RedisLock Client) (w : W)
    (pre post : list Event) (key v : string) (t : Duration) (b : bool)
    (e : error) :
  trace (Lock ctx l w) = pre ++ EvSetNX key v t (b, Some e) :: post ->
  result (Lock ctx l w) = Some (ErrorfW "failed to acquire lock: " e)
  ∧ Unwrap (ErrorfW "failed to acquire lock: " e) = Some e
  ∧ attempts post = 0%nat ∧ waits post = 0%nat.
Proof.
  intros Htr.
  pose proof (Lock_run ctx l w) as Hrun.
  rewrite Htr, protocol_app in Hrun. simpl in Hrun.
  eapply lock_run_store_error in Hrun; [|reflexivity].
  destruct Hrun as [-> Hpost].
  rewrite <- (attempts_protocol post), <- (waits_protocol post).
  fold (protocol post) in Hpost. rewrite Hpost. auto.
Qed.

(** The token of a handle is the clock reading of its construction,
    printed in decimal. *)
Lemma NewRedisLock_value (c : Client) (opts : option Options.t) (w : W) :
  value (result (NewRedisLock c opts w))
  = Sprintf_d (time_Now (Ctx := Ctx) w).1.
Proof.
  unfold NewRedisLock, generateLockValue, Now.
  unfold mbind, M_bind, mret, M_ret, result.
  destruct (time_Now w) as [t w1]; reflexivity.
Qed.

(** C8 (as the code has it).  Two handles constructed at clock readings
    that differ carry tokens that differ, whatever their clients,
    options and keys. *)
Theorem tokens_differ_when_clock_differs (c1 c2 : Client)
    (opts1 opts2 : option Options.t) (w1 w2 : W) :
  (time_Now (Ctx := Ctx) w1).1 ≠ (time_Now (Ctx := Ctx) w2).1 ->
  value (result (NewRedisLock c1 opts1 w1))
  ≠ value (result (NewRedisLock c2 opts2 w2)).
Proof.
  intros Hne Heq. rewrite !NewRedisLock_value in Heq.
  apply Hne, Sprintf_d_inj, Heq.
Qed.

(** C10.  A handle constructed with [nil] options has TTL 30 s, retry
    delay 100 ms, 3 retries, tracing on and the empty key; so the
    [SetNX] of its [TryLock] is on the empty key, for every such
    handle. *)
Theorem NewRedisLock_nil_options (c : Client) (w : W) :
  let l := result (NewRedisLock c None w) in
  options l = Options.mk "" (30 * Second) (100 * Millisecond) 3 true
  ∧ Options.Key (options l) = ""
  ∧ ∀ (ctx : Ctx) (w' : W), ∃ res,
      protocol (trace (TryLock ctx l w'))
      = [EvSetNX "" (value l) (30 * Second) res].
Proof.
  assert (Ho : options (result (NewRedisLock c None w))
               = Options.mk "" (30 * Second) (100 * Millisecond) 3 true).
  { unfold NewRedisLock, generateLockValue, Now.
    unfold mbind, M_bind, mret, M_ret, result.
    destruct (time_Now w) as [t w1]; reflexivity. }
  cbv zeta. split; [exact Ho|]. split; [rewrite Ho; reflexivity|].
  intros ctx w'.
  destruct (TryLock_run ctx (result (NewRedisLock c None w)) w')
    as (_ & _ & Ht).
  cbv zeta in Ht. rewrite Ht. unfold attempt. rewrite Ho. simpl.
  eexists. reflexivity.
Qed.

End LockProperties.

(* ===================================================================== *)
(** ** Configuration                                                      *)
(* ===================================================================== *)

(** C7.  A disabled configuration passes [Validate] whatever its other
    fields; an enabled configuration with a non-positive ttl or negative
    maxRetries is rejected by [Validate], and [ToOptions] returns that
    error and no options, so there is nothing to construct a handle
    from. *)
Theorem Config_validation_fails_closed (c : Config.t) :
  (Config.Enabled c = false -> Config.Validate (Some c) = None)
  ∧ (Config.Enabled c = true ->
     Config.TTL c <= 0 ∨ Config.MaxRetries c < 0 ->
     ∃ err, Config.Validate (Some c) = Some err
            ∧ Config.ToOptions (Some c) = (None, Some err)).
Proof.
  unfold Config.ToOptions, Config.Validate. split.
  - intros ->. reflexivity.
  - intros -> [Httl|Hmax]; simpl.
    + apply Z.leb_le in Httl. rewrite Httl. eauto.
    + destruct (Config.TTL c <=? 0); [eauto|].
      apply Z.ltb_lt in Hmax. rewrite Hmax. eauto.
Qed.

(* ===================================================================== *)
(** ** Properties on the reference store                                  *)
(* ===================================================================== *)

Section RefProperties.
Import Ref.

(** C1.  For every handle and every state of the store: when the round
    trip of [Unlock] fails, [Unlock] returns that error, wrapped;
    otherwise it returns [nil], and the store afterwards is the store
    before without the entry at the handle's key when that entry's value
    is the handle's token, and the store before, unchanged, when it is
    not (another value, or no entry).  So an entry is removed exactly
    when it carried the token. *)
Theorem Unlock_ownership_gated (ctx : Context) (l : RedisLock unit)
    (w : World) :
  let key := Options.Key (options l) in
  let r := Unlock ctx l w in
  match next_fault w with
  | Some e => result r = Some (ErrorfW "failed to release lock: " e)
  | None =>
      result r = None
      ∧ db (world r) =
        (if owned_by (db w) key (value l) then delete key (db w) else db w)
      ∧ (is_Some (db w !! key) ∧ db (world r) !! key = None
         ↔ owned_by (db w) key (value l) = true)
  end.
Proof.
  cbv zeta.
  destruct (Unlock_untraced ctx l w) as [-> ->].
  pose proof (unlock_on_store ctx l w) as H. cbv zeta in H.
  destruct (next_fault w); [tauto|].
  destruct H as [-> ->]. split; [reflexivity|]. split; [reflexivity|].
  unfold owned_by. case_bool_decide as Hown.
  - split; [reflexivity|]. intros _.
    destruct (db w !! Options.Key (options l)) eqn:Hk; [|discriminate].
    split; [eauto|]. apply lookup_delete_eq.
  - split; [|discriminate]. intros [[e He] Hnone]. congruence.
Qed.

(** The general form of what [Extend] does on the reference store: the
    lease of an owned entry becomes the whole seconds of the duration,
    and the entry is deleted when that number is not positive. *)
Lemma Extend_sets_whole_seconds (ctx : Context) (l : RedisLock unit) (d : Duration)
    (w : World) :
  let key := Options.Key (options l) in
  let secs := int_of_float64 (Seconds d) in
  let r := Extend ctx l d w in
  match next_fault w with
  | Some e => result r = Some (ErrorfW "failed to extend lock: " e)
  | None =>
      result r = None
      ∧ db (world r) =
        if owned_by (db w) key (value l) then
          if secs <=? 0 then delete key (db w)
          else <[key := mkEntry (value l) (Some (secs * Second))]> (db w)
        else db w
  end.
Proof.
  cbv zeta.
  destruct (Extend_untraced ctx l d w) as [-> ->].
  pose proof (extend_on_store ctx l d w) as H. cbv zeta in H.
  destruct (next_fault w); tauto.
Qed.

(** C2, at the input where the code departs from it.  [handle_B] owns
    [res1].  [Extend] with 1.5 s leaves a lease of 1 s, not 1.5 s, and
    [Extend] with 500 ms removes the entry; both return [nil]. *)
Theorem Extend_keeps_whole_seconds_only :
  let w := Scenario.held_by_B in
  let l := Scenario.handle_B in
  let r1 := Extend Background l (1500 * Millisecond) w in
  let r2 := Extend Background l (500 * Millisecond) w in
  owned_by (db w) "res1" (value l) = true
  ∧ result r1 = None
  ∧ db (world r1) !! "res1" = Some (mkEntry "tokB" (Some (1 * Second)))
  ∧ result r2 = None
  ∧ db (world r2) !! "res1" = None.
Proof. vm_compute. repeat split. Qed.

(** C4.  For every call of [TryLock]: when the round trip fails it
    returns [false] and an error that wraps the store's; otherwise it
    returns no error, and [true] exactly when the store had no entry for
    the key, the store then holding the entry (key, token, lease of TTL);
    when an entry was there it returns [false] and the store is
    unchanged. *)
Theorem TryLock_acquires_iff_absent (ctx : Context) (l : RedisLock unit)
    (w : World) :
  let key := Options.Key (options l) in
  let r := TryLock ctx l w in
  match next_fault w with
  | Some e =>
      ∃ err, result r = (false, Some err) ∧ Unwrap err = Some e
  | None =>
      (result r).2 = None
      ∧ ((result r).1 = true ↔ db w !! key = None)
      ∧ db (world r) =
        (if (result r).1
         then <[key := mkEntry (value l) (lease (Options.TTL (options l)))]>
                (db w)
         else db w)
  end.
Proof.
  cbv zeta.
  destruct (TryLock_on_store ctx l w) as (H & _). cbv zeta in H.
  destruct (next_fault w).
  - destruct H as [-> _]. eexists. split; reflexivity.
  - destruct H as [-> ->]. simpl. split; [reflexivity|].
    split; [|reflexivity]. apply bool_decide_eq_true.
Qed.

(** While the key is taken and no round trip fails, every call is
    refused and the store stays as it is. *)
Lemma TryLock_each_refused (calls : list (Context * RedisLock unit))
    (key : string) (w : World) :
  Forall (fun call => Options.Key (options call.2) = key) calls ->
  is_Some (db w !! key) ->
  Forall (fun f => f = None) (faults w) ->
  result (TryLock_each calls w) = replicate (length calls) (false, None).
Proof.
  revert w. induction calls as [|[ctx l] calls IH]; intros w Hkeys Hheld Hf.
  { reflexivity. }
  apply Forall_cons in Hkeys as [Hk Hkeys']. simpl in Hk.
  simpl. rewrite result_bind, result_bind, result_ret.
  destruct (TryLock_on_store ctx l w) as (H & Hfs & _). cbv zeta in H.
  assert (Hnf : next_fault w = None).
  { unfold next_fault, round_trip.
    destruct (faults w) as [|f fs]; [reflexivity|].
    inversion Hf; subst. reflexivity. }
  rewrite Hnf, Hk in H. destruct H as [Hr Hdb].
  destruct Hheld as [e He].
  rewrite bool_decide_eq_false_2 in Hr, Hdb by congruence.
  rewrite Hr. f_equal. apply IH; auto.
  - rewrite Hdb. eauto.
  - rewrite Hfs. destruct (faults w); [constructor|]. inversion Hf; auto.
Qed.

(** C9.  Calls of [TryLock] by any handles for one key, served by the
    store one after the other in any order, starting with no entry for
    the key and with no round trip failing: the results are as many as
    the calls, one of them is [(true, nil)], and every other one is
    [(false, nil)]. *)
Theorem TryLock_mutual_exclusion (calls : list (Context * RedisLock unit))
    (key : string) (w : World) :
  calls ≠ [] ->
  Forall (fun call => Options.Key (options call.2) = key) calls ->
  db w !! key = None ->
  Forall (fun f => f = None) (faults w) ->
  let rs := result (TryLock_each calls w) in
  length rs = length calls
  ∧ ∃ i, rs !! i = Some (true, None)
         ∧ ∀ j r, j ≠ i -> rs !! j = Some r -> r = (false, None).
Proof.
  intros Hne Hkeys Hfree Hf. cbv zeta.
  destruct calls as [|[ctx l] calls]; [congruence|]. clear Hne.
  apply Forall_cons in Hkeys as [Hk Hkeys']. simpl in Hk. subst key.
  simpl. rewrite result_bind, result_bind, result_ret.
  destruct (TryLock_on_store ctx l w) as (H & Hfs & _). cbv zeta in H.
  assert (Hnf : next_fault w = None).
  { unfold next_fault, round_trip.
    destruct (faults w) as [|f fs]; [reflexivity|].
    inversion Hf; subst. reflexivity. }
  rewrite Hnf in H. destruct H as [Hr Hdb].
  rewrite bool_decide_eq_true_2 in Hr, Hdb by assumption.
  rewrite Hr.
  rewrite (TryLock_each_refused calls (Options.Key (options l))); auto.
  - split; [simpl; rewrite length_replicate; reflexivity|].
    exists 0%nat. split; [reflexivity|].
    intros [|j] r Hj Hr'; [congruence|]. simpl in Hr'.
    apply lookup_replicate in Hr'. tauto.
  - rewrite Hdb, lookup_insert_eq. eauto.
  - rewrite Hfs. destruct (faults w); [constructor|]. inversion Hf; auto.
Qed.

(** On the reference runtime a wait that the context interrupts ends at
    the instant the context is done, before the delay has passed. *)
Lemma ref_select_interrupted (t : Z) (e : error) (d : Duration) (w : World) :
  clock w <= t < clock w + d ->
  (ref_select (DoneAt t e) d w).1 = Some e
  ∧ clock (ref_select (DoneAt t e) d w).2 = t.
Proof.
  intros [H1 H2]. unfold ref_select.
  replace (t <? clock w + d) with true by (symmetry; apply Z.ltb_lt; lia).
  rewrite orb_true_r. simpl. split; [reflexivity|]. lia.
Qed.

End RefProperties.

(* ===================================================================== *)
(** ** The properties at concrete runs                                    *)
(* ===================================================================== *)

Section Runs.
Import Ref Scenario.

(** [Lock_retry_bound] at two retries, with tracing, the key held by
    [handle_B] throughout: two attempts, two waits. *)
Lemma Lock_retry_bound_witness :
  Z.of_nat (attempts (trace (Lock Background handle_A2 held_by_B))) = 2
  ∧ Z.of_nat (waits (trace (Lock Background handle_A2 held_by_B))) = 2
  ∧ result (Lock Background handle_A2 held_by_B) = Some (exhausted 2)
  ∧ Error (exhausted 2)
    = "failed to acquire lock after " +:+ Sprintf_d 2 +:+ " retries".
Proof.
  apply (Lock_retry_bound Background handle_A2 held_by_B 2).
  - lia.
  - reflexivity.
  - vm_compute. repeat constructor.
  - vm_compute. repeat constructor.
Defined.

(** C3 as stated fails already for one retry.  [handle_A] has
    [MaxRetries = 1]; [res1] is held by [handle_B] at its only attempt and
    the context is never done.  [Lock] makes one attempt and then waits
    once, where the claim has [1 - 1 = 0] waits; the clock has advanced by
    the retry delay when the exhaustion error is returned. *)
Lemma Lock_waits_after_last_attempt :
  let r := Lock Background handle_A held_by_B in
  Options.MaxRetries (options handle_A) = 1
  ∧ Forall refused (trace r)
  ∧ Forall wait_completed (trace r)
  ∧ result r = Some (exhausted 1)
  ∧ attempts (trace r) = 1%nat
  ∧ waits (trace r) = 1%nat
  ∧ Z.of_nat (waits (trace r)) ≠ 1 - 1
  ∧ clock (world r) = clock held_by_B + 100 * Millisecond.
Proof.
  vm_compute. repeat split; try (repeat constructor); discriminate.
Qed.

(** [Lock_cancellation_aborts] at a run with two retries and tracing,
    the context done 150 ms in: the second wait is interrupted. *)
Lemma Lock_cancellation_aborts_witness :
  let tr := trace (Lock canceled_at_150ms handle_A2 held_by_B) in
  result (Lock canceled_at_150ms handle_A2 held_by_B) = Some Canceled
  ∧ attempts (drop 20 tr) = 0%nat ∧ waits (drop 20 tr) = 0%nat.
Proof.
  apply (Lock_cancellation_aborts canceled_at_150ms handle_A2 held_by_B
           (take 19 (trace (Lock canceled_at_150ms handle_A2 held_by_B)))
           (drop 20 (trace (Lock canceled_at_150ms handle_A2 held_by_B)))
           (100 * Millisecond) Canceled).
  vm_compute. reflexivity.
Defined.

(** In that run [Lock] returns at the instant of cancellation, 50 ms into
    a wait of 100 ms. *)
Example Lock_canceled_returns_early :
  clock (world (Lock canceled_at_150ms handle_A2 held_by_B))
  = 150 * Millisecond.
Proof. vm_compute. reflexivity. Qed.

(** [Lock_store_error_aborts] at a run whose second round trip fails. *)
Lemma Lock_store_error_aborts_witness :
  let tr := trace (Lock Background handle_A2 second_call_fails) in
  result (Lock Background handle_A2 second_call_fails)
  = Some (ErrorfW "failed to acquire lock: " (External "connection reset"))
  ∧ Unwrap (ErrorfW "failed to acquire lock: " (External "connection reset"))
    = Some (External "connection reset")
  ∧ attempts (drop 14 tr) = 0%nat ∧ waits (drop 14 tr) = 0%nat.
Proof.
  apply (Lock_store_error_aborts Background handle_A2 second_call_fails
           (take 13 (trace (Lock Background handle_A2 second_call_fails)))
           (drop 14 (trace (Lock Background handle_A2 second_call_fails)))
           "res1" "tokA" (30 * Second) false (External "connection reset")).
  vm_compute. reflexivity.
Defined.

(** [tokens_differ_when_clock_differs] at clock readings 1 and 2. *)
Lemma tokens_differ_witness :
  value (result (NewRedisLock tt None (mkWorld ∅ 1 [])))
  ≠ value (result (NewRedisLock tt None (mkWorld ∅ 2 []))).
Proof.
  apply (tokens_differ_when_clock_differs (Ctx := Context) tt tt None None
           (mkWorld ∅ 1 []) (mkWorld ∅ 2 [])).
  vm_compute. discriminate.
Defined.

(** C8 as stated fails: two handles for the same key constructed one
    after the other while the clock reads the same carry the same
    token. *)
Lemma tokens_collide_on_equal_clock_reading :
  let r1 := NewRedisLock (Ctx := Context) tt
              (Some (res1_options 3 true)) free in
  let r2 := NewRedisLock (Ctx := Context) tt
              (Some (res1_options 3 true)) (world r1) in
  trace r1 = [EvNow 0] ∧ trace r2 = [EvNow 0]
  ∧ value (result r1) = value (result r2).
Proof. vm_compute. repeat split. Qed.

(** [TryLock_mutual_exclusion] at two handles racing for [res1]. *)
Lemma TryLock_mutual_exclusion_witness :
  let rs := result (TryLock_each
              [(Background, handle_A); (Background, handle_B)] free) in
  length rs = 2%nat
  ∧ ∃ i, rs !! i = Some (true, None)
         ∧ ∀ j r, j ≠ i -> rs !! j = Some r -> r = (false, None).
Proof.
  apply (TryLock_mutual_exclusion
           [(Background, handle_A); (Background, handle_B)] "res1" free).
  - discriminate.
  - repeat constructor.
  - reflexivity.
  - constructor.
Defined.

(** [Config_validation_fails_closed] at a disabled configuration and at an
    enabled one with a zero ttl. *)
Lemma Config_validation_witness :
  let disabled := Config.mk false (-1) 0 (-1) true in
  let zero_ttl := Config.mk true 0 (100 * Millisecond) 3 true in
  Config.Validate (Some disabled) = None
  ∧ ∃ err, Config.Validate (Some zero_ttl) = Some err
           ∧ Config.ToOptions (Some zero_ttl) = (None, Some err).
Proof.
  split.
  - apply (proj1 (Config_validation_fails_closed
                    (Config.mk false (-1) 0 (-1) true))).
    reflexivity.
  - apply (proj2 (Config_validation_fails_closed
                    (Config.mk true 0 (100 * Millisecond) 3 true))).
    + reflexivity.
    + left. simpl. lia.
Defined.

End Runs.

(* ===================================================================== *)
(** ** Further properties of the package                                  *)
(* ===================================================================== *)

Section FurtherProperties.
Context {Client Ctx W : Type}.
Context `{!RedisClient Client Ctx W, !Runtime Ctx W}.

(** X1.  With [MaxRetries <= 0] the loop body never runs: [Lock] makes no
    attempt and no wait and returns the exhaustion error. *)
Theorem Lock_zero_retries (ctx : Ctx) (l : RedisLock Client) (w : W) :
  Options.MaxRetries (options l) <= 0 ->
  attempts (trace (Lock ctx l w)) = 0%nat
  ∧ waits (trace (Lock ctx l w)) = 0%nat
  ∧ result (Lock ctx l w)
    = Some (exhausted (Options.MaxRetries (options l))).
Proof.
  intros Hle.
  pose proof (Lock_run ctx l w) as Hrun.
  replace (Z.to_nat (Options.MaxRetries (options l))) with 0%nat in Hrun
    by lia.
  rewrite <- attempts_protocol, <- waits_protocol.
  inversion Hrun as [Htr Hres| | | |]. auto.
Qed.

(** X2.  The tracing wrapper is a decorator: whatever the handler, the
    operation name, the key and the flag, it returns what the handler
    returns and adds no protocol effect. *)
Theorem tracing_is_transparent {A} (ctx : Ctx) (operation key : string)
    (handler : Ctx -> M W (A * option error)) (enableTrace : bool) (w : W) :
  result (lockWithTrace ctx operation key handler enableTrace w)
  = result (handler ctx (after_Now (Ctx := Ctx) w))
  ∧ protocol (trace (lockWithTrace ctx operation key handler enableTrace w))
    = protocol (trace (handler ctx (after_Now (Ctx := Ctx) w))).
Proof.
  destruct (lockWithTrace_decorates ctx operation key handler enableTrace w)
    as (H1 & _ & H2).
  auto.
Qed.

(** X3.  Switching [EnableTrace] changes nothing [Lock] returns or does to
    the store, on a runtime where reading the clock leaves the world as
    it is. *)
Theorem Lock_same_with_and_without_trace (ctx : Ctx) (l : RedisLock Client)
    (w : W) :
  (∀ w' : W, after_Now (Ctx := Ctx) w' = w') ->
  result (Lock ctx (with_trace true l) w)
  = result (Lock ctx (with_trace false l) w)
  ∧ world (Lock ctx (with_trace true l) w)
    = world (Lock ctx (with_trace false l) w)
  ∧ protocol (trace (Lock ctx (with_trace true l) w))
    = protocol (trace (Lock ctx (with_trace false l) w)).
Proof.
  intros Hnow. unfold Lock. simpl.
  destruct (traced_decorates ctx "lock" (Options.Key (options l))
    (fun ctx => lock ctx (with_trace true l)) w) as (-> & -> & ->).
  rewrite !Hnow. unfold lock. simpl.
  apply lock_loop_with_trace, Hnow.
Qed.

(** X4.  In every run of [Lock]: an attempt that acquires is the last
    protocol event, and [Lock] returns [nil]. *)
Theorem Lock_stops_on_acquisition (ctx : Ctx) (l : RedisLock Client) (w : W)
    (pre post : list Event) (key v : string) (t : Duration) :
  trace (Lock ctx l w) = pre ++ EvSetNX key v t (true, None) :: post ->
  result (Lock ctx l w) = None
  ∧ attempts post = 0%nat ∧ waits post = 0%nat.
Proof.
  intros Htr.
  pose proof (Lock_run ctx l w) as Hrun.
  rewrite Htr, protocol_app in Hrun. simpl in Hrun.
  eapply lock_run_acquired in Hrun; [|reflexivity].
  destruct Hrun as [-> Hpost].
  rewrite <- (attempts_protocol post), <- (waits_protocol post).
  fold (protocol post) in Hpost. rewrite Hpost. auto.
Qed.

End FurtherProperties.

(** X5.  For an enabled configuration that passes validation, [ToOptions]
    returns no error and options with the configured ttl, the retry
    delay and the number of retries with 100 ms and 3 standing in for
    zero, the tracing flag, and an empty key. *)
Theorem ToOptions_of_valid_config (c : Config.t) :
  Config.Enabled c = true ->
  0 < Config.TTL c ->
  0 <= Config.MaxRetries c ->
  Config.ToOptions (Some c)
  = (Some (Options.mk ""
             (Config.TTL c)
             (if Config.RetryDelay c =? 0 then 100 * Millisecond
              else Config.RetryDelay c)
             (if Config.MaxRetries c =? 0 then 3 else Config.MaxRetries c)
             (Config.EnableTrace c)),
     None).
Proof.
  intros Hen Httl Hmax. unfold Config.ToOptions, Config.Validate.
  rewrite Hen. simpl.
  replace (Config.TTL c <=? 0) with false by (symmetry; apply Z.leb_gt; lia).
  replace (Config.MaxRetries c <? 0) with false
    by (symmetry; apply Z.ltb_ge; lia).
  replace (Config.TTL c =? 0) with false by (symmetry; apply Z.eqb_neq; lia).
  reflexivity.
Qed.

Section FurtherRuns.
Import Ref Scenario.

Lemma Lock_zero_retries_witness :
  attempts (trace (Lock Background handle_A0 free)) = 0%nat
  ∧ waits (trace (Lock Background handle_A0 free)) = 0%nat
  ∧ result (Lock Background handle_A0 free) = Some (exhausted 0).
Proof.
  apply (Lock_zero_retries Background handle_A0 free).
  simpl. lia.
Defined.

Lemma Lock_same_with_and_without_trace_witness :
  result (Lock Background (with_trace true handle_A2) held_by_B)
  = result (Lock Background (with_trace false handle_A2) held_by_B)
  ∧ world (Lock Background (with_trace true handle_A2) held_by_B)
    = world (Lock Background (with_trace false handle_A2) held_by_B)
  ∧ protocol (trace (Lock Background (with_trace true handle_A2) held_by_B))
    = protocol
        (trace (Lock Background (with_trace false handle_A2) held_by_B)).
Proof.
  apply (Lock_same_with_and_without_trace Background handle_A2 held_by_B).
  intros w'. reflexivity.
Defined.

Lemma Lock_stops_on_acquisition_witness :
  result (Lock Background handle_A free) = None
  ∧ attempts [] = 0%nat ∧ waits [] = 0%nat.
Proof.
  apply (Lock_stops_on_acquisition Background handle_A free []
           [] "res1" "tokA" (30 * Second)).
  vm_compute. reflexivity.
Defined.

Lemma ToOptions_of_valid_config_witness :
  Config.ToOptions (Some (Config.mk true (5 * Second) 0 0 false))
  = (Some (Options.mk "" (5 * Second) (100 * Millisecond) 3 false), None).
Proof.
  apply (ToOptions_of_valid_config (Config.mk true (5 * Second) 0 0 false)).
  - reflexivity.
  - reflexivity.
  - discriminate.
Defined.

(** The example of the specification: A acquires [res1]; B is refused; A
    releases; B acquires; A releases again, which returns no error and
    leaves B's entry in place. *)
Example acquire_release_scenario :
  let r1 := TryLock Background handle_A free in
  let r2 := TryLock Background handle_B (world r1) in
  let r3 := Unlock Background handle_A (world r2) in
  let r4 := TryLock Background handle_B (world r3) in
  let r5 := Unlock Background handle_A (world r4) in
  result r1 = (true, None)
  ∧ db (world r1) !! "res1" = Some (mkEntry "tokA" (Some (30 * Second)))
  ∧ result r2 = (false, None)
  ∧ result r3 = None ∧ db (world r3) !! "res1" = None
  ∧ result r4 = (true, None)
  ∧ result r5 = None
  ∧ db (world r5) !! "res1" = Some (mkEntry "tokB" (Some (30 * Second))).
Proof. vm_compute. repeat split. Qed.

(** Once a lease has run out, another handle acquires the key. *)
Example lease_expiry_enables_reacquisition :
  let r1 := TryLock Background handle_A free in
  let later := tick (30 * Second) (world r1) in
  let r2 := TryLock Background handle_B later in
  result r1 = (true, None)
  ∧ db later !! "res1" = None
  ∧ result r2 = (true, None).
Proof. vm_compute. repeat split. Qed.

End FurtherRuns.

(* ===================================================================== *)
(** ** More on the methods, for any client and runtime                    *)
(* ===================================================================== *)

Lemma span_starts_app (t1 t2 : list Event) :
  span_starts (t1 ++ t2) = (span_starts t1 + span_starts t2)%nat.
Proof. unfold span_starts. rewrite List.filter_app. apply length_app. Qed.

Lemma span_ends_app (t1 t2 : list Event) :
  span_ends (t1 ++ t2) = (span_ends t1 + span_ends t2)%nat.
Proof. unfold span_ends. rewrite List.filter_app. apply length_app. Qed.

Lemma logs_app (t1 t2 : list Event) :
  logs (t1 ++ t2) = (logs t1 + logs t2)%nat.
Proof. unfold logs. rewrite List.filter_app. apply length_app. Qed.

Lemma attempts_append (t1 t2 : list Event) :
  attempts (t1 ++ t2) = (attempts t1 + attempts t2)%nat.
Proof. unfold attempts. rewrite List.filter_app. apply length_app. Qed.

Lemma waits_append (t1 t2 : list Event) :
  waits (t1 ++ t2) = (waits t1 + waits t2)%nat.
Proof. unfold waits. rewrite List.filter_app. apply length_app. Qed.

Lemma elem_of_protocol_trace (ev : Event) (tr : list Event) :
  ev ∈ protocol tr -> ev ∈ tr.
Proof.
  unfold protocol. rewrite !list_elem_of_In, List.filter_In. tauto.
Qed.

Section MoreMethodFacts.
Context {Client Ctx W : Type}.
Context `{!RedisClient Client Ctx W, !Runtime Ctx W}.

Lemma unlock_run (ctx : Ctx) (l : RedisLock Client) (w : W) :
  let ev := Eval (client l) ctx unlock_script [Options.Key (options l)]
              [ArgString (value l)] w in
  result (unlock ctx l w) = eval_result "failed to release lock: " ev.1
  ∧ world (unlock ctx l w) = ev.2
  ∧ trace (unlock ctx l w)
    = [EvEval unlock_script [Options.Key (options l)]
         [ArgString (value l)] ev.1].
Proof.
  unfold unlock, call_Eval, eval_result.
  unfold mbind, M_bind, mret, M_ret, result, world, trace.
  destruct (Eval _ _ _ _ _ _) as [[rep [e|]] w1]; simpl; auto.
Qed.

Lemma extend_run (ctx : Ctx) (l : RedisLock Client) (d : Duration) (w : W) :
  let args := [ArgString (value l); ArgInt (int_of_float64 (Seconds d))] in
  let ev := Eval (client l) ctx extend_script [Options.Key (options l)]
              args w in
  result (extend ctx l d w) = eval_result "failed to extend lock: " ev.1
  ∧ world (extend ctx l d w) = ev.2
  ∧ trace (extend ctx l d w)
    = [EvEval extend_script [Options.Key (options l)] args ev.1].
Proof.
  unfold extend, call_Eval, eval_result.
  unfold mbind, M_bind, mret, M_ret, result, world, trace.
  destruct (Eval _ _ _ _ _ _) as [[rep [e|]] w1]; simpl; auto.
Qed.

Lemma Unlock_run (ctx : Ctx) (l : RedisLock Client) (w : W) :
  let ev := Eval (client l) ctx unlock_script [Options.Key (options l)]
              [ArgString (value l)] (entry l w) in
  result (Unlock ctx l w) = eval_result "failed to release lock: " ev.1
  ∧ world (Unlock ctx l w) = entry l ev.2
  ∧ protocol (trace (Unlock ctx l w))
    = [EvEval unlock_script [Options.Key (options l)]
         [ArgString (value l)] ev.1].
Proof.
  unfold Unlock, entry.
  destruct (Options.EnableTrace (options l)).
  - destruct (traced_decorates ctx "unlock" (Options.Key (options l))
      (fun ctx => unlock ctx l) w) as (-> & -> & ->).
    destruct (unlock_run ctx l (after_Now w)) as (-> & -> & ->). auto.
  - destruct (unlock_run ctx l w) as (-> & -> & ->). auto.
Qed.

Lemma Extend_run (ctx : Ctx) (l : RedisLock Client) (d : Duration) (w : W) :
  let args := [ArgString (value l); ArgInt (int_of_float64 (Seconds d))] in
  let ev := Eval (client l) ctx extend_script [Options.Key (options l)]
              args (entry l w) in
  result (Extend ctx l d w) = eval_result "failed to extend lock: " ev.1
  ∧ world (Extend ctx l d w) = entry l ev.2
  ∧ protocol (trace (Extend ctx l d w))
    = [EvEval extend_script [Options.Key (options l)] args ev.1].
Proof.
  unfold Extend, entry.
  destruct (Options.EnableTrace (options l)).
  - destruct (traced_decorates ctx "extend" (Options.Key (options l))
      (fun ctx => extend ctx l d) w) as (-> & -> & ->).
    destruct (extend_run ctx l d (after_Now w)) as (-> & -> & ->). auto.
  - destruct (extend_run ctx l d w) as (-> & -> & ->). auto.
Qed.

(** Bounds every run of the loop keeps. *)
Lemma lock_run_bounds (l : RedisLock Client) n tr r :
  lock_run l n tr r ->
  (attempts tr <= n)%nat
  ∧ (waits tr <= attempts tr)%nat
  ∧ (attempts tr <= waits tr + 1)%nat.
Proof.
  induction 1 as [| n b e | n | n e | n tr r Hrun IH];
    unfold attempts, waits in *; simpl; lia.
Qed.

Lemma lock_run_at_least_once (l : RedisLock Client) n tr r :
  lock_run l (S n) tr r -> (1 <= attempts tr)%nat.
Proof.
  inversion 1; subst; unfold attempts; simpl; lia.
Qed.

(** Where the result of a run comes from. *)
Lemma lock_run_origin (l : RedisLock Client) n tr r :
  lock_run l n tr r ->
  match r with
  | None => ∃ key v t, EvSetNX key v t (true, None) ∈ tr
  | Some err =>
      err = exhausted (Options.MaxRetries (options l))
      ∨ (∃ key v t b e,
           EvSetNX key v t (b, Some e) ∈ tr
           ∧ err = ErrorfW "failed to acquire lock: " e)
      ∨ (∃ d e, EvSelect d (Some e) ∈ tr ∧ err = e)
  end.
Proof.
  induction 1 as [| n b e | n | n e | n tr r Hrun IH].
  - left. reflexivity.
  - right. left. do 5 eexists. split; [apply list_elem_of_here|reflexivity].
  - do 3 eexists. apply list_elem_of_here.
  - right. right. do 2 eexists.
    split; [apply list_elem_of_further, list_elem_of_here|reflexivity].
  - destruct r as [err|].
    + destruct IH as [IH|[IH|IH]].
      * left. exact IH.
      * right. left. destruct IH as (key & v & t & b & e & Hin & Heq).
        exists key, v, t, b, e. split; [|exact Heq].
        do 2 apply list_elem_of_further. exact Hin.
      * right. right. destruct IH as (d & e & Hin & Heq).
        exists d, e. split; [|exact Heq].
        do 2 apply list_elem_of_further. exact Hin.
    + destruct IH as (key & v & t & Hin). exists key, v, t.
      do 2 apply list_elem_of_further. exact Hin.
Qed.

(** With tracing on, the wrapper starts one span, ends one span and
    writes one log entry around whatever its handler does. *)
Lemma lockWithTrace_counts {A} (ctx : Ctx) (operation key : string)
    (handler : Ctx -> M W (A * option error)) (w : W) :
  let tr := trace (lockWithTrace ctx operation key handler true w) in
  let inner := trace (handler ctx (after_Now w)) in
  span_starts tr = S (span_starts inner)
  ∧ span_ends tr = S (span_ends inner)
  ∧ logs tr = S (logs inner)
  ∧ attempts tr = attempts inner.
Proof.
  unfold lockWithTrace, Since, Now, observe, after_Now.
  unfold mbind, M_bind, mret, M_ret, result, world, trace.
  destruct (time_Now w) as [t w1]; simpl.
  destruct (handler ctx w1) as [[[a err] w2] tr]; simpl.
  destruct (time_Now w2) as [t2 w3]; simpl.
  destruct err; simpl;
    unfold span_starts, span_ends, logs, attempts; simpl;
    rewrite !List.filter_app, !length_app; simpl; repeat split; lia.
Qed.

Lemma traced_counts (ctx : Ctx) (operation key : string)
    (handler : Ctx -> M W (option error)) (w : W) :
  let tr := trace (traced ctx operation key handler w) in
  let inner := trace (handler ctx (after_Now w)) in
  span_starts tr = S (span_starts inner)
  ∧ span_ends tr = S (span_ends inner)
  ∧ logs tr = S (logs inner)
  ∧ attempts tr = attempts inner.
Proof.
  unfold traced. cbv zeta. rewrite trace_bind.
  rewrite span_starts_app, span_ends_app, logs_app, attempts_append.
  pose proof (lockWithTrace_counts ctx operation key
    (fun ctx => err ← handler ctx; mret (tt, err)) w) as H.
  cbv beta zeta in H. rewrite trace_bind in H.
  rewrite span_starts_app, span_ends_app, logs_app, attempts_append in H.
  destruct H as (-> & -> & -> & ->).
  destruct (result (lockWithTrace _ _ _ _ _ _)) as [u err]; simpl.
  unfold span_starts, span_ends, logs, attempts. simpl. repeat split; lia.
Qed.

Lemma TryLock_traced_counts (ctx : Ctx) (l : RedisLock Client) (w : W) :
  Options.EnableTrace (options l) = true ->
  span_starts (trace (TryLock ctx l w)) = 1%nat
  ∧ span_ends (trace (TryLock ctx l w)) = 1%nat
  ∧ logs (trace (TryLock ctx l w)) = 1%nat.
Proof.
  intros Hen. unfold TryLock. rewrite Hen.
  destruct (lockWithTrace_counts ctx "try_lock" (Options.Key (options l))
    (fun ctx => tryLock ctx l) w) as (-> & -> & -> & _).
  destruct (tryLock_run ctx l (after_Now w)) as (_ & _ & ->).
  auto.
Qed.

Lemma lock_loop_traced_counts (n : nat) (ctx : Ctx) (l : RedisLock Client)
    (w : W) :
  Options.EnableTrace (options l) = true ->
  let tr := trace (lock_loop n ctx l w) in
  span_starts tr = attempts tr
  ∧ span_ends tr = attempts tr
  ∧ logs tr = attempts tr.
Proof.
  intros Hen. cbv zeta. revert w. induction n as [|n IH]; intros w; simpl.
  { auto. }
  rewrite trace_bind.
  rewrite span_starts_app, span_ends_app, logs_app, attempts_append.
  destruct (TryLock_traced_counts ctx l w Hen) as (-> & -> & ->).
  rewrite (TryLock_is_one_attempt ctx l w).
  destruct (result (TryLock ctx l w)) as [ok [e|]]; simpl; auto.
  destruct ok; simpl; auto.
  rewrite trace_bind.
  rewrite span_starts_app, span_ends_app, logs_app, attempts_append.
  match goal with |- context [select ctx ?d ?w1] =>
    destruct (select_run ctx d w1) as (Hr & _ & Ht) end.
  rewrite Hr, Ht. clear Hr Ht.
  destruct (select_Done_After _ _ _).1 as [e|]; simpl; auto.
  match goal with |- context [lock_loop n ctx l ?w2] =>
    destruct (IH w2) as (-> & -> & ->) end.
  auto.
Qed.

(** With tracing off, the loop performs store and timer effects only. *)
Lemma lock_loop_untraced (n : nat) (ctx : Ctx) (l : RedisLock Client)
    (w : W) :
  Options.EnableTrace (options l) = false ->
  protocol (trace (lock_loop n ctx l w)) = trace (lock_loop n ctx l w).
Proof.
  intros Hen. revert w. induction n as [|n IH]; intros w; simpl.
  { reflexivity. }
  rewrite trace_bind, protocol_app.
  unfold TryLock. rewrite Hen.
  destruct (tryLock_run ctx l w) as (_ & _ & Ht).
  rewrite Ht. simpl.
  destruct (result (tryLock ctx l w)) as [ok [e|]]; simpl; auto.
  destruct ok; simpl; auto.
  rewrite trace_bind, protocol_app.
  match goal with |- context [select ctx ?d ?w1] =>
    destruct (select_run ctx d w1) as (Hr' & _ & Ht') end.
  rewrite Hr', Ht'. clear Hr' Ht'. simpl.
  destruct (select_Done_After _ _ _).1 as [e|]; simpl; auto.
  rewrite IH. reflexivity.
Qed.

End MoreMethodFacts.

Section MoreProperties.
Context {Client Ctx W : Type}.
Context `{!RedisClient Client Ctx W, !Runtime Ctx W}.

(** X6.  [TryLock], [Unlock] and [Extend] are one round trip each, with
    or without tracing: one [SetNX] with the handle's key, token and
    TTL; one [Eval] of the release script, or of the extension script
    with the whole seconds of the duration, on the handle's key and
    token.  None of them waits or retries, and [Unlock] and [Extend]
    return an error exactly when the round trip does, wrapping it. *)
Theorem methods_are_single_round_trips (ctx : Ctx) (l : RedisLock Client)
    (d : Duration) (w : W) :
  (∃ res, protocol (trace (TryLock ctx l w))
          = [EvSetNX (Options.Key (options l)) (value l)
               (Options.TTL (options l)) res]
          ∧ result (TryLock ctx l w) = tryLock_result res)
  ∧ (∃ res, protocol (trace (Unlock ctx l w))
            = [EvEval unlock_script [Options.Key (options l)]
                 [ArgString (value l)] res]
            ∧ result (Unlock ctx l w)
              = eval_result "failed to release lock: " res)
  ∧ (∃ res, protocol (trace (Extend ctx l d w))
            = [EvEval extend_script [Options.Key (options l)]
                 [ArgString (value l);
                  ArgInt (int_of_float64 (Seconds d))] res]
            ∧ result (Extend ctx l d w)
              = eval_result "failed to extend lock: " res).
Proof.
  split; [|split].
  - destruct (TryLock_run ctx l w) as (Hr & _ & Ht). eauto.
  - destruct (Unlock_run ctx l w) as (Hr & _ & Ht). eauto.
  - destruct (Extend_run ctx l d w) as (Hr & _ & Ht). eauto.
Qed.

(** X7.  Every run of [Lock], whatever the store and the context do,
    makes at most [MaxRetries] attempts (none when it is negative), and
    its waits are as many as its attempts or one fewer. *)
Theorem Lock_attempts_bounded (ctx : Ctx) (l : RedisLock Client) (w : W) :
  Z.of_nat (attempts (trace (Lock ctx l w)))
  <= Z.max 0 (Options.MaxRetries (options l))
  ∧ (waits (trace (Lock ctx l w)) <= attempts (trace (Lock ctx l w)))%nat
  ∧ (attempts (trace (Lock ctx l w))
     <= waits (trace (Lock ctx l w)) + 1)%nat.
Proof.
  pose proof (Lock_run ctx l w) as Hrun.
  apply lock_run_bounds in Hrun.
  rewrite attempts_protocol, waits_protocol in Hrun. lia.
Qed.

(** X8.  What [Lock] returns is accounted for by its run: [nil] only
    after an attempt that acquired; an error is the exhaustion error,
    or the wrapped error of a [SetNX] of the run, or the error of the
    context with which a wait of the run ended. *)
Theorem Lock_result_origin (ctx : Ctx) (l : RedisLock Client) (w : W) :
  match result (Lock ctx l w) with
  | None => ∃ key v t, EvSetNX key v t (true, None) ∈ trace (Lock ctx l w)
  | Some err =>
      err = exhausted (Options.MaxRetries (options l))
      ∨ (∃ key v t b e,
           EvSetNX key v t (b, Some e) ∈ trace (Lock ctx l w)
           ∧ err = ErrorfW "failed to acquire lock: " e)
      ∨ (∃ d e, EvSelect d (Some e) ∈ trace (Lock ctx l w) ∧ err = e)
  end.
Proof.
  pose proof (Lock_run ctx l w) as Hrun.
  apply lock_run_origin in Hrun.
  destruct (result (Lock ctx l w)) as [err|].
  - destruct Hrun as [H|[H|H]].
    + left. exact H.
    + right. left. destruct H as (key & v & t & b & e & Hin & Heq).
      exists key, v, t, b, e. eauto using elem_of_protocol_trace.
    + right. right. destruct H as (d & e & Hin & Heq).
      exists d, e. eauto using elem_of_protocol_trace.
  - destruct Hrun as (key & v & t & Hin).
    exists key, v, t. eauto using elem_of_protocol_trace.
Qed.

(** X9.  With tracing on, every call of a method starts one span, ends
    it and writes one log entry, on every way out.  [TryLock], [Unlock]
    and [Extend] do so once; [Lock] once for itself and once for each
    attempt it makes. *)
Theorem traced_methods_close_their_spans (ctx : Ctx) (l : RedisLock Client)
    (d : Duration) (w : W) :
  Options.EnableTrace (options l) = true ->
  (span_starts (trace (Lock ctx l w)) = S (attempts (trace (Lock ctx l w)))
   ∧ span_ends (trace (Lock ctx l w)) = S (attempts (trace (Lock ctx l w)))
   ∧ logs (trace (Lock ctx l w)) = S (attempts (trace (Lock ctx l w))))
  ∧ (span_starts (trace (TryLock ctx l w)) = 1%nat
     ∧ span_ends (trace (TryLock ctx l w)) = 1%nat
     ∧ logs (trace (TryLock ctx l w)) = 1%nat)
  ∧ (span_starts (trace (Unlock ctx l w)) = 1%nat
     ∧ span_ends (trace (Unlock ctx l w)) = 1%nat
     ∧ logs (trace (Unlock ctx l w)) = 1%nat)
  ∧ (span_starts (trace (Extend ctx l d w)) = 1%nat
     ∧ span_ends (trace (Extend ctx l d w)) = 1%nat
     ∧ logs (trace (Extend ctx l d w)) = 1%nat).
Proof.
  intros Hen. split; [|split; [|split]].
  - unfold Lock. rewrite Hen.
    destruct (traced_counts ctx "lock" (Options.Key (options l))
      (fun ctx => lock ctx l) w) as (-> & -> & -> & ->).
    unfold lock.
    destruct (lock_loop_traced_counts
      (Z.to_nat (Options.MaxRetries (options l))) ctx l (after_Now w) Hen)
      as (-> & -> & ->).
    auto.
  - apply TryLock_traced_counts, Hen.
  - unfold Unlock. rewrite Hen.
    destruct (traced_counts ctx "unlock" (Options.Key (options l))
      (fun ctx => unlock ctx l) w) as (-> & -> & -> & _).
    destruct (unlock_run ctx l (after_Now w)) as (_ & _ & ->). auto.
  - unfold Extend. rewrite Hen.
    destruct (traced_counts ctx "extend" (Options.Key (options l))
      (fun ctx => extend ctx l d) w) as (-> & -> & -> & _).
    destruct (extend_run ctx l d (after_Now w)) as (_ & _ & ->). auto.
Qed.

(** X10.  With tracing off, a method reads no clock and tells the
    tracer and the logger nothing: all it does are its store and timer
    effects. *)
Theorem untraced_methods_are_silent (ctx : Ctx) (l : RedisLock Client)
    (d : Duration) (w : W) :
  Options.EnableTrace (options l) = false ->
  protocol (trace (Lock ctx l w)) = trace (Lock ctx l w)
  ∧ protocol (trace (TryLock ctx l w)) = trace (TryLock ctx l w)
  ∧ protocol (trace (Unlock ctx l w)) = trace (Unlock ctx l w)
  ∧ protocol (trace (Extend ctx l d w)) = trace (Extend ctx l d w).
Proof.
  intros Hen. unfold Lock, TryLock, Unlock, Extend. rewrite Hen.
  split; [|split; [|split]].
  - apply lock_loop_untraced, Hen.
  - destruct (tryLock_run ctx l w) as (_ & _ & ->). reflexivity.
  - destruct (unlock_run ctx l w) as (_ & _ & ->). reflexivity.
  - destruct (extend_run ctx l d w) as (_ & _ & ->). reflexivity.
Qed.

(** X12.  A handle built from the options of any accepted configuration
    makes at least one attempt when asked to [Lock], and its key is the
    empty string. *)
Theorem configured_handle_attempts (c : Config.t) (o : Options.t)
    (cl : Client) (ctx : Ctx) (w0 w : W) :
  Config.ToOptions (Some c) = (Some o, None) ->
  let l := result (NewRedisLock cl (Some o) w0) in
  (1 <= attempts (trace (Lock ctx l w)))%nat
  ∧ Options.Key (options l) = "".
Proof.
  intros Hopt. cbv zeta.
  assert (Ho : options (result (NewRedisLock cl (Some o) w0)) = o).
  { unfold NewRedisLock, generateLockValue, Now.
    unfold mbind, M_bind, mret, M_ret, result.
    destruct (time_Now w0) as [t w1]; reflexivity. }
  unfold Config.ToOptions, Config.Validate in Hopt.
  destruct (Config.Enabled c); simpl in Hopt; [|discriminate].
  destruct (Config.TTL c <=? 0); [discriminate|].
  destruct (Config.MaxRetries c <? 0) eqn:Hneg; [discriminate|].
  apply Z.ltb_ge in Hneg.
  injection Hopt as Heq.
  assert (Hmax : 1 <= Options.MaxRetries o).
  { rewrite <- Heq. simpl.
    destruct (Config.MaxRetries c =? 0) eqn:Hz; [lia|].
    apply Z.eqb_neq in Hz. lia. }
  split.
  - pose proof (Lock_run ctx (result (NewRedisLock cl (Some o) w0)) w)
      as Hrun.
    rewrite Ho in Hrun.
    destruct (Z.to_nat (Options.MaxRetries o)) as [|n] eqn:Hn; [lia|].
    apply lock_run_at_least_once in Hrun.
    rewrite attempts_protocol in Hrun. exact Hrun.
  - rewrite Ho, <- Heq. reflexivity.
Qed.

End MoreProperties.

(** X11.  [ToOptions] returns options or an error, never both and never
    neither, also for a [nil] receiver; it returns options only for an
    enabled configuration, and those options have a positive TTL, at
    least one retry, a retry delay that is not zero, and the empty
    key. *)
Theorem ToOptions_options_or_error (c : option Config.t) :
  match Config.ToOptions c with
  | (Some o, None) =>
      (∃ cfg, c = Some cfg ∧ Config.Enabled cfg = true)
      ∧ 0 < Options.TTL o
      ∧ 1 <= Options.MaxRetries o
      ∧ Options.RetryDelay o ≠ 0
      ∧ Options.Key o = ""
  | (None, Some _) => True
  | _ => False
  end.
Proof.
  unfold Config.ToOptions, Config.Validate.
  destruct c as [cfg|]; [|exact I].
  destruct (Config.Enabled cfg) eqn:Hen; simpl; [|exact I].
  destruct (Config.TTL cfg <=? 0) eqn:Httl; [exact I|].
  destruct (Config.MaxRetries cfg <? 0) eqn:Hmax; [exact I|].
  apply Z.leb_gt in Httl. apply Z.ltb_ge in Hmax. simpl.
  split; [eauto|].
  split. { destruct (Config.TTL cfg =? 0); unfold Second; lia. }
  split. { destruct (Config.MaxRetries cfg =? 0) eqn:Hz; [lia|].
           apply Z.eqb_neq in Hz. lia. }
  split; [|reflexivity].
  destruct (Config.RetryDelay cfg =? 0) eqn:Hz.
  - unfold Millisecond. lia.
  - apply Z.eqb_neq in Hz. exact Hz.
Qed.

(* ===================================================================== *)
(** ** More on the reference store                                        *)
(* ===================================================================== *)

Section MoreRefFacts.
Import Ref.

Lemma TryLock_world (ctx : Context) (l : RedisLock unit) (w : World) :
  let key := Options.Key (options l) in
  world (TryLock ctx l w)
  = store_after w
      (if bool_decide (db w !! key = None)
       then <[key := mkEntry (value l) (lease (Options.TTL (options l)))]>
              (db w)
       else db w)
  ∧ result (TryLock ctx l w)
    = match next_fault w with
      | Some e => (false, Some (ErrorfW "failed to acquire lock: " e))
      | None => (bool_decide (db w !! key = None), None)
      end.
Proof.
  destruct (TryLock_on_store ctx l w) as (H & Hf & Hc). cbv zeta in *.
  unfold store_after.
  destruct (world (TryLock ctx l w)) as [m c f]. simpl in *. subst c f.
  destruct (next_fault w); destruct H as [-> ->]; auto.
Qed.

Lemma unlock_world (ctx : Context) (l : RedisLock unit) (w : World) :
  let key := Options.Key (options l) in
  world (unlock ctx l w)
  = store_after w
      (if owned_by (db w) key (value l) then delete key (db w) else db w)
  ∧ result (unlock ctx l w)
    = match next_fault w with
      | Some e => Some (ErrorfW "failed to release lock: " e)
      | None => None
      end.
Proof.
  unfold unlock, call_Eval, store_after, next_fault, round_trip.
  unfold mbind, M_bind, mret, M_ret, result, world; cbn -[exec owned_by].
  unfold ref_Eval, round_trip.
  destruct w as [m c [|[e|] fs]]; cbn -[exec owned_by]; auto;
    rewrite exec_unlock_script; destruct (owned_by _ _ _); simpl; auto.
Qed.

Lemma extend_world (ctx : Context) (l : RedisLock unit) (d : Duration)
    (w : World) :
  let key := Options.Key (options l) in
  let secs := int_of_float64 (Seconds d) in
  world (extend ctx l d w)
  = store_after w
      (if owned_by (db w) key (value l) then
         if secs <=? 0 then delete key (db w)
         else <[key := mkEntry (value l) (Some (secs * Second))]> (db w)
       else db w)
  ∧ result (extend ctx l d w)
    = match next_fault w with
      | Some e => Some (ErrorfW "failed to extend lock: " e)
      | None => None
      end.
Proof.
  unfold extend, call_Eval, store_after, next_fault, round_trip.
  unfold mbind, M_bind, mret, M_ret, result, world; cbn -[exec owned_by].
  unfold ref_Eval, round_trip.
  destruct w as [m c [|[e|] fs]];
    cbn -[exec owned_by Seconds int_of_float64]; auto;
    rewrite exec_extend_script; destruct (owned_by _ _ _); simpl; auto.
Qed.

Lemma Unlock_world (ctx : Context) (l : RedisLock unit) (w : World) :
  let key := Options.Key (options l) in
  world (Unlock ctx l w)
  = store_after w
      (if owned_by (db w) key (value l) then delete key (db w) else db w)
  ∧ result (Unlock ctx l w)
    = match next_fault w with
      | Some e => Some (ErrorfW "failed to release lock: " e)
      | None => None
      end.
Proof.
  destruct (Unlock_untraced ctx l w) as [-> ->]. apply unlock_world.
Qed.

Lemma Extend_world (ctx : Context) (l : RedisLock unit) (d : Duration)
    (w : World) :
  let key := Options.Key (options l) in
  let secs := int_of_float64 (Seconds d) in
  world (Extend ctx l d w)
  = store_after w
      (if owned_by (db w) key (value l) then
         if secs <=? 0 then delete key (db w)
         else <[key := mkEntry (value l) (Some (secs * Second))]> (db w)
       else db w)
  ∧ result (Extend ctx l d w)
    = match next_fault w with
      | Some e => Some (ErrorfW "failed to extend lock: " e)
      | None => None
      end.
Proof.
  destruct (Extend_untraced ctx l d w) as [-> ->]. apply extend_world.
Qed.

(** A schedule without failures stays one, and its coming round trip
    succeeds. *)
Lemma no_faults_next (w : World) : no_faults w -> next_fault w = None.
Proof.
  unfold no_faults, next_fault, round_trip.
  destruct (faults w) as [|f fs]; [reflexivity|].
  intros H. apply Forall_cons in H as [-> _]. reflexivity.
Qed.

Lemma no_faults_store_after (w : World) (m : gmap string Entry) :
  no_faults w ->
  no_faults (store_after w m) ∧ db (store_after w m) = m
  ∧ clock (store_after w m) = clock w.
Proof.
  intros H. unfold store_after. rewrite (no_faults_next w H).
  unfold no_faults in *. simpl. split; [|auto].
  destruct (faults w); [constructor|]. apply Forall_cons in H as [_ H]. exact H.
Qed.

Lemma no_faults_tick (dt : Duration) (w : World) :
  no_faults w -> no_faults (tick dt w).
Proof. auto. Qed.

(** What time does to an entry. *)
Lemma lookup_elapse (dt : Duration) (m : gmap string Entry) (k : string) :
  elapse dt m !! k = m !! k ≫= age dt.
Proof. unfold elapse. apply lookup_omap. Qed.

(** A wait on the reference runtime lasts no longer than its delay. *)
Lemma ref_select_clock (ctx : Context) (d : Duration) (w : World) :
  clock w <= clock (ref_select ctx d w).2 <= clock w + Z.max 0 d.
Proof.
  unfold ref_select. destruct ctx as [|t e]; simpl; [lia|].
  destruct ((t <=? clock w) || (t <? clock w + d)) eqn:Hc; simpl; [|lia].
  apply orb_true_iff in Hc as [Hc|Hc].
  - apply Z.leb_le in Hc. lia.
  - apply Z.ltb_lt in Hc. lia.
Qed.

Lemma ref_select_faults (ctx : Context) (d : Duration) (w : World) :
  faults (ref_select ctx d w).2 = faults w.
Proof.
  unfold ref_select. destruct ctx as [|t e]; simpl; [reflexivity|].
  destruct ((t <=? clock w) || (t <? clock w + d)); reflexivity.
Qed.

Lemma lock_loop_clock (n : nat) (ctx : Context) (l : RedisLock unit)
    (w : World) :
  clock w <= clock (world (lock_loop n ctx l w))
  <= clock w + Z.of_nat n * Z.max 0 (Options.RetryDelay (options l)).
Proof.
  pose proof (Z.le_max_l 0 (Options.RetryDelay (options l))) as HD.
  pose proof (Z.le_max_r 0 (Options.RetryDelay (options l))) as HD'.
  set (D := Z.max 0 (Options.RetryDelay (options l))) in *.
  revert w. induction n as [|n IH]; intros w.
  { cbn [lock_loop]. rewrite world_ret. lia. }
  rewrite Nat2Z.inj_succ.
  cbn [lock_loop]. rewrite world_bind.
  destruct (TryLock_world ctx l w) as [Hw Hr]. cbv zeta in *.
  assert (Hc : clock (world (TryLock ctx l w)) = clock w)
    by (rewrite Hw; reflexivity).
  assert (0 <= Z.of_nat n * D) by nia.
  destruct (result (TryLock ctx l w)) as [ok [e|]].
  { rewrite world_ret. nia. }
  destruct ok.
  { rewrite world_ret. nia. }
  rewrite world_bind.
  destruct (select_run ctx (Options.RetryDelay (options l))
              (world (TryLock ctx l w))) as (Hsr & Hsw & _).
  rewrite Hsr, Hsw.
  pose proof (ref_select_clock ctx (Options.RetryDelay (options l))
                (world (TryLock ctx l w))) as Hsel.
  fold D in Hsel.
  change (select_Done_After ctx (Options.RetryDelay (options l))
            (world (TryLock ctx l w)))
    with (ref_select ctx (Options.RetryDelay (options l))
            (world (TryLock ctx l w))) in *.
  destruct (ref_select _ _ _).1 as [e|].
  { rewrite world_ret. nia. }
  specialize (IH (ref_select ctx (Options.RetryDelay (options l))
                    (world (TryLock ctx l w))).2).
  nia.
Qed.

Lemma lock_loop_holds (n : nat) (ctx : Context) (l : RedisLock unit)
    (w : World) :
  result (lock_loop n ctx l w) = None ->
  db (world (lock_loop n ctx l w)) !! Options.Key (options l)
  = Some (mkEntry (value l) (lease (Options.TTL (options l)))).
Proof.
  revert w. induction n as [|n IH]; intros w.
  { cbn [lock_loop]. rewrite result_ret. discriminate. }
  cbn [lock_loop]. rewrite world_bind, result_bind.
  destruct (TryLock_world ctx l w) as [Hw Hr]. cbv zeta in *.
  rewrite Hr, Hw. unfold store_after.
  destruct (next_fault w) as [e|].
  { rewrite result_ret. discriminate. }
  case_bool_decide as Hfree.
  { rewrite world_ret, result_ret. intros _. simpl. apply lookup_insert_eq. }
  rewrite world_bind, result_bind.
  match goal with |- context [select ctx ?d ?w1] =>
    destruct (select_run ctx d w1) as (Hsr & Hsw & _); rewrite Hsr, Hsw end.
  destruct (select_Done_After _ _ _).1 as [e|].
  { rewrite result_ret. discriminate. }
  apply IH.
Qed.

End MoreRefFacts.

Section MoreRefProperties.
Import Ref.

Lemma Lock_untraced (ctx : Context) (l : RedisLock unit) (w : World) :
  result (Lock ctx l w) = result (lock ctx l w)
  ∧ world (Lock ctx l w) = world (lock ctx l w)
  ∧ attempts (trace (Lock ctx l w)) = attempts (trace (lock ctx l w))
  ∧ waits (trace (Lock ctx l w)) = waits (trace (lock ctx l w)).
Proof.
  unfold Lock. destruct (Options.EnableTrace (options l)); [|auto].
  destruct (traced_decorates ctx "lock" (Options.Key (options l))
    (fun ctx => lock ctx l) w) as (-> & -> & Ht).
  rewrite <- (attempts_protocol (trace (traced _ _ _ _ _))).
  rewrite <- (waits_protocol (trace (traced _ _ _ _ _))).
  rewrite Ht, attempts_protocol, waits_protocol. auto.
Qed.

Lemma TryLock_no_wait (ctx : Context) (l : RedisLock unit) (w : World) :
  waits (trace (TryLock ctx l w)) = 0%nat.
Proof.
  destruct (TryLock_run ctx l w) as (_ & _ & Ht). cbv zeta in Ht.
  rewrite <- waits_protocol, Ht. reflexivity.
Qed.

(** The first iteration of the loop when the key is free. *)
Lemma lock_loop_free (n : nat) (ctx : Context) (l : RedisLock unit)
    (w : World) :
  db w !! Options.Key (options l) = None ->
  no_faults w ->
  let r := lock_loop (S n) ctx l w in
  result r = None
  ∧ world r = world (TryLock ctx l w)
  ∧ attempts (trace r) = 1%nat ∧ waits (trace r) = 0%nat.
Proof.
  intros Hfree Hnf. cbv zeta. cbn [lock_loop].
  rewrite result_bind, world_bind, trace_bind, attempts_append, waits_append.
  rewrite TryLock_is_one_attempt, TryLock_no_wait.
  destruct (TryLock_world ctx l w) as [_ Hr]. cbv zeta in Hr.
  rewrite (no_faults_next w Hnf), bool_decide_eq_true_2 in Hr by exact Hfree.
  rewrite Hr. auto.
Qed.

(** One refused attempt and one completed wait. *)
Lemma lock_loop_refused_once (n : nat) (l : RedisLock unit) (w : World) :
  is_Some (db w !! Options.Key (options l)) ->
  no_faults w ->
  let w1 := tick (Z.max 0 (Options.RetryDelay (options l)))
              (world (TryLock Background l w)) in
  let r := lock_loop (S n) Background l w in
  result r = result (lock_loop n Background l w1)
  ∧ world r = world (lock_loop n Background l w1)
  ∧ attempts (trace r) = S (attempts (trace (lock_loop n Background l w1)))
  ∧ waits (trace r) = S (waits (trace (lock_loop n Background l w1)))
  ∧ db (world (TryLock Background l w)) = db w.
Proof.
  intros [e He] Hnf. cbv zeta. cbn [lock_loop].
  rewrite result_bind, world_bind, trace_bind, attempts_append, waits_append.
  rewrite TryLock_is_one_attempt, TryLock_no_wait.
  destruct (TryLock_world Background l w) as [Hw Hr]. cbv zeta in Hw, Hr.
  rewrite (no_faults_next w Hnf) in Hr.
  rewrite bool_decide_eq_false_2 in Hw, Hr by congruence.
  rewrite Hr.
  rewrite result_bind, world_bind, trace_bind, attempts_append, waits_append.
  unfold select at 1 2 3 4 5 6. simpl.
  repeat split; try lia.
  rewrite Hw. unfold store_after. rewrite (no_faults_next w Hnf). reflexivity.
Qed.

(** X13.  Acquiring a free key and releasing it with the same handle
    puts the store back as it was. *)
Theorem acquire_then_release_restores_store (ctx1 ctx2 : Context)
    (l : RedisLock unit) (w : World) :
  db w !! Options.Key (options l) = None ->
  no_faults w ->
  let r1 := TryLock ctx1 l w in
  let r2 := Unlock ctx2 l (world r1) in
  result r1 = (true, None) ∧ result r2 = None ∧ db (world r2) = db w.
Proof.
  intros Hfree Hnf. cbv zeta.
  destruct (TryLock_world ctx1 l w) as [Hw1 Hr1]. cbv zeta in *.
  rewrite (no_faults_next w Hnf), bool_decide_eq_true_2 in Hr1 by exact Hfree.
  rewrite bool_decide_eq_true_2 in Hw1 by exact Hfree.
  destruct (no_faults_store_after w
    (<[Options.Key (options l) :=
         mkEntry (value l) (lease (Options.TTL (options l)))]> (db w)) Hnf)
    as (Hnf1 & Hdb1 & _).
  rewrite <- Hw1 in Hnf1, Hdb1.
  destruct (Unlock_world ctx2 l (world (TryLock ctx1 l w))) as [Hw2 Hr2].
  cbv zeta in *.
  rewrite (no_faults_next _ Hnf1) in Hr2.
  rewrite Hw2. unfold store_after. rewrite (no_faults_next _ Hnf1). simpl.
  rewrite Hdb1. unfold owned_by.
  rewrite lookup_insert_eq. simpl.
  rewrite bool_decide_eq_true_2 by reflexivity.
  rewrite delete_insert_id by exact Hfree. auto.
Qed.

(** X14.  Releasing twice is releasing once: the second [Unlock] finds
    nothing of the handle's to remove, changes nothing and still
    returns [nil]. *)
Theorem Unlock_twice_is_Unlock_once (ctx1 ctx2 : Context)
    (l : RedisLock unit) (w : World) :
  no_faults w ->
  let r1 := Unlock ctx1 l w in
  let r2 := Unlock ctx2 l (world r1) in
  result r1 = None ∧ result r2 = None ∧ db (world r2) = db (world r1).
Proof.
  intros Hnf. cbv zeta.
  destruct (Unlock_world ctx1 l w) as [Hw1 Hr1]. cbv zeta in *.
  rewrite (no_faults_next w Hnf) in Hr1.
  match type of Hw1 with _ = store_after w ?m =>
    destruct (no_faults_store_after w m Hnf) as (Hnf1 & Hdb1 & _) end.
  rewrite <- Hw1 in Hnf1, Hdb1.
  destruct (Unlock_world ctx2 l (world (Unlock ctx1 l w))) as [Hw2 Hr2].
  cbv zeta in *.
  rewrite (no_faults_next _ Hnf1) in Hr2.
  split; [exact Hr1|]. split; [exact Hr2|].
  rewrite Hw2. unfold store_after. rewrite (no_faults_next _ Hnf1). simpl.
  rewrite Hdb1. unfold owned_by.
  destruct (bool_decide (val <$> db w !! Options.Key (options l)
                         = Some (value l))) eqn:Hown.
  - rewrite lookup_delete_eq. reflexivity.
  - rewrite Hown. reflexivity.
Qed.

(** X15.  The token, not the handle, decides a release.  After handle
    [a] has acquired a free key, [Unlock] by any handle [b] for that key
    removes [a]'s entry when [b] carries the same token, and leaves it
    in place when the tokens differ; it returns [nil] either way. *)
Theorem token_decides_release (ctx1 ctx2 : Context) (a b : RedisLock unit)
    (w : World) :
  Options.Key (options b) = Options.Key (options a) ->
  db w !! Options.Key (options a) = None ->
  no_faults w ->
  let r1 := TryLock ctx1 a w in
  let r2 := Unlock ctx2 b (world r1) in
  result r1 = (true, None)
  ∧ result r2 = None
  ∧ db (world r2) !! Options.Key (options a)
    = if bool_decide (value b = value a) then None
      else Some (mkEntry (value a) (lease (Options.TTL (options a)))).
Proof.
  intros Hkey Hfree Hnf. cbv zeta.
  destruct (TryLock_world ctx1 a w) as [Hw1 Hr1]. cbv zeta in *.
  rewrite (no_faults_next w Hnf), bool_decide_eq_true_2 in Hr1 by exact Hfree.
  rewrite bool_decide_eq_true_2 in Hw1 by exact Hfree.
  match type of Hw1 with _ = store_after w ?m =>
    destruct (no_faults_store_after w m Hnf) as (Hnf1 & Hdb1 & _) end.
  rewrite <- Hw1 in Hnf1, Hdb1.
  destruct (Unlock_world ctx2 b (world (TryLock ctx1 a w))) as [Hw2 Hr2].
  cbv zeta in *.
  rewrite (no_faults_next _ Hnf1) in Hr2.
  split; [exact Hr1|]. split; [exact Hr2|].
  rewrite Hw2. unfold store_after. rewrite (no_faults_next _ Hnf1). simpl.
  rewrite Hdb1, Hkey. unfold owned_by.
  rewrite lookup_insert_eq. simpl.
  destruct (decide (value b = value a)) as [Heq|Hne].
  - rewrite !bool_decide_eq_true_2 by congruence. apply lookup_delete_eq.
  - rewrite !bool_decide_eq_false_2 by congruence. apply lookup_insert_eq.
Qed.

(** X16.  [TryLock], [Unlock] and [Extend] touch no key but the
    handle's: every other entry is after the call what it was before,
    whether the round trip fails or not. *)
Theorem other_keys_untouched (ctx : Context) (l : RedisLock unit)
    (d : Duration) (w : World) (k : string) :
  k ≠ Options.Key (options l) ->
  db (world (TryLock ctx l w)) !! k = db w !! k
  ∧ db (world (Unlock ctx l w)) !! k = db w !! k
  ∧ db (world (Extend ctx l d w)) !! k = db w !! k.
Proof.
  intros Hk.
  destruct (TryLock_world ctx l w) as [-> _].
  destruct (Unlock_world ctx l w) as [-> _].
  destruct (Extend_world ctx l d w) as [-> _].
  unfold store_after. simpl.
  destruct (next_fault w); [auto|].
  repeat split.
  - case_bool_decide; [|reflexivity]. apply lookup_insert_ne. congruence.
  - destruct (owned_by _ _ _); [|reflexivity].
    apply lookup_delete_ne. congruence.
  - destruct (owned_by _ _ _); [|reflexivity].
    destruct (_ <=? 0).
    + apply lookup_delete_ne. congruence.
    + apply lookup_insert_ne. congruence.
Qed.

(** X17.  When [Lock] returns [nil], the store holds the handle's entry:
    its key, its token, and the lease its TTL asks for. *)
Theorem Lock_success_holds_lease (ctx : Context) (l : RedisLock unit)
    (w : World) :
  result (Lock ctx l w) = None ->
  db (world (Lock ctx l w)) !! Options.Key (options l)
  = Some (mkEntry (value l) (lease (Options.TTL (options l)))).
Proof.
  destruct (Lock_untraced ctx l w) as (-> & -> & _).
  apply lock_loop_holds.
Qed.

(** X18.  [Lock] blocks no longer than [MaxRetries] retry delays: the
    clock when it returns is at most that far past the clock when it
    was called, whatever the store answers and whenever the context is
    done. *)
Theorem Lock_blocking_time_bounded (ctx : Context) (l : RedisLock unit)
    (w : World) :
  clock w <= clock (world (Lock ctx l w))
  <= clock w + Z.max 0 (Options.MaxRetries (options l))
               * Z.max 0 (Options.RetryDelay (options l)).
Proof.
  destruct (Lock_untraced ctx l w) as (_ & -> & _).
  pose proof (lock_loop_clock (Z.to_nat (Options.MaxRetries (options l)))
                ctx l w) as H.
  unfold lock.
  replace (Z.max 0 (Options.MaxRetries (options l)))
    with (Z.of_nat (Z.to_nat (Options.MaxRetries (options l)))) by lia.
  exact H.
Qed.

(** X19.  Expiry frees the key for a waiting [Lock].  When the holder's
    lease runs out within one retry delay and the handle has at least
    two retries, [Lock] is refused once, waits once, acquires at its
    second attempt and returns [nil], one retry delay after the call. *)
Theorem Lock_acquires_once_lease_expires (l : RedisLock unit) (w : World)
    (holder : string) (remaining : Duration) :
  db w !! Options.Key (options l) = Some (mkEntry holder (Some remaining)) ->
  0 < remaining <= Options.RetryDelay (options l) ->
  2 <= Options.MaxRetries (options l) ->
  no_faults w ->
  let r := Lock Background l w in
  result r = None
  ∧ attempts (trace r) = 2%nat ∧ waits (trace r) = 1%nat
  ∧ db (world r) !! Options.Key (options l)
    = Some (mkEntry (value l) (lease (Options.TTL (options l))))
  ∧ clock (world r) = clock w + Options.RetryDelay (options l).
Proof.
  intros Hheld Hrem Hmax Hnf. cbv zeta.
  destruct (Lock_untraced Background l w) as (-> & -> & -> & ->).
  unfold lock.
  destruct (Z.to_nat (Options.MaxRetries (options l))) as [|[|n]] eqn:Hn;
    [lia|lia|].
  destruct (lock_loop_refused_once (S n) l w) as (-> & -> & -> & -> & Hdb);
    [eauto|exact Hnf|].
  destruct (TryLock_world Background l w) as [Hw1 _]. cbv zeta in Hw1.
  match type of Hw1 with _ = store_after w ?m =>
    destruct (no_faults_store_after w m Hnf) as (Hnf1 & _ & Hc1) end.
  rewrite <- Hw1 in Hnf1, Hc1.
  set (w1 := tick (Z.max 0 (Options.RetryDelay (options l)))
               (world (TryLock Background l w))).
  assert (Hfree : db w1 !! Options.Key (options l) = None).
  { unfold w1. simpl. rewrite lookup_elapse, Hdb, Hheld. simpl.
    unfold age. simpl.
    replace (Z.max 0 (Options.RetryDelay (options l)) <? remaining) with false
      by (symmetry; apply Z.ltb_ge; lia).
    reflexivity. }
  assert (Hnfw1 : no_faults w1) by (apply no_faults_tick, Hnf1).
  destruct (lock_loop_free n Background l w1 Hfree Hnfw1)
    as (-> & -> & -> & ->).
  destruct (TryLock_world Background l w1) as [Hw2 _]. cbv zeta in Hw2.
  rewrite bool_decide_eq_true_2 in Hw2 by exact Hfree.
  rewrite Hw2. unfold store_after. rewrite (no_faults_next _ Hnfw1). simpl.
  rewrite lookup_insert_eq, Hc1. repeat split. lia.
Qed.

(** X20.  An uncontended [Lock] does not wait: with the key free, the
    round trip sound and at least one retry allowed, it acquires at its
    first attempt and returns [nil] with the clock where it was. *)
Theorem Lock_uncontended_does_not_wait (ctx : Context) (l : RedisLock unit)
    (w : World) :
  db w !! Options.Key (options l) = None ->
  1 <= Options.MaxRetries (options l) ->
  no_faults w ->
  let r := Lock ctx l w in
  result r = None
  ∧ attempts (trace r) = 1%nat ∧ waits (trace r) = 0%nat
  ∧ clock (world r) = clock w
  ∧ db (world r)
    = <[Options.Key (options l) :=
          mkEntry (value l) (lease (Options.TTL (options l)))]> (db w).
Proof.
  intros Hfree Hmax Hnf. cbv zeta.
  destruct (Lock_untraced ctx l w) as (-> & -> & -> & ->).
  unfold lock.
  destruct (Z.to_nat (Options.MaxRetries (options l))) as [|n] eqn:Hn; [lia|].
  destruct (lock_loop_free n ctx l w Hfree Hnf) as (-> & -> & -> & ->).
  destruct (TryLock_world ctx l w) as [-> _].
  rewrite bool_decide_eq_true_2 by exact Hfree.
  unfold store_after. rewrite (no_faults_next _ Hnf). auto.
Qed.

(** X21.  [Unlock] and [Extend] never create an entry and never change
    a value: a key that has an entry after the call had one before,
    with the same value.  For a handle that does not own the entry at
    its key, [Extend] leaves the store as it is. *)
Theorem release_and_extension_never_create (ctx : Context)
    (l : RedisLock unit) (d : Duration) (w : World) :
  (∀ k e', db (world (Unlock ctx l w)) !! k = Some e' ->
           db w !! k = Some e')
  ∧ (∀ k e', db (world (Extend ctx l d w)) !! k = Some e' ->
             ∃ e, db w !! k = Some e ∧ val e' = val e)
  ∧ (owned_by (db w) (Options.Key (options l)) (value l) = false ->
     db (world (Extend ctx l d w)) = db w).
Proof.
  destruct (Unlock_world ctx l w) as [-> _].
  destruct (Extend_world ctx l d w) as [-> _].
  unfold store_after. simpl.
  destruct (next_fault w); [eauto|].
  unfold owned_by.
  case_bool_decide as Hown; [|split; [|split]; eauto].
  split; [|split; [|discriminate]].
  - intros k e' H. apply lookup_delete_Some in H. tauto.
  - intros k e' H.
    destruct (db w !! Options.Key (options l)) as [e|] eqn:Hk;
      [|discriminate].
    simpl in Hown. injection Hown as Hval.
    destruct (_ <=? 0).
    + apply lookup_delete_Some in H. destruct H as [_ H]. eauto.
    + destruct (decide (k = Options.Key (options l))) as [->|Hne].
      * rewrite lookup_insert_eq in H. injection H as <-.
        exists e. auto.
      * rewrite lookup_insert_ne in H by congruence. eauto.
Qed.

End MoreRefProperties.

(* ===================================================================== *)
(** ** The further properties at concrete runs                            *)
(* ===================================================================== *)

Section MoreRuns.
Import Ref Scenario Scenario2.

Lemma traced_methods_close_their_spans_witness :
  let l := handle_A2 in
  let w := held_by_B in
  let d := 2 * Second in
  (span_starts (trace (Lock Background l w))
   = S (attempts (trace (Lock Background l w)))
   ∧ span_ends (trace (Lock Background l w))
     = S (attempts (trace (Lock Background l w)))
   ∧ logs (trace (Lock Background l w))
     = S (attempts (trace (Lock Background l w))))
  ∧ (span_starts (trace (TryLock Background l w)) = 1%nat
     ∧ span_ends (trace (TryLock Background l w)) = 1%nat
     ∧ logs (trace (TryLock Background l w)) = 1%nat)
  ∧ (span_starts (trace (Unlock Background l w)) = 1%nat
     ∧ span_ends (trace (Unlock Background l w)) = 1%nat
     ∧ logs (trace (Unlock Background l w)) = 1%nat)
  ∧ (span_starts (trace (Extend Background l d w)) = 1%nat
     ∧ span_ends (trace (Extend Background l d w)) = 1%nat
     ∧ logs (trace (Extend Background l d w)) = 1%nat).
Proof.
  exact (traced_methods_close_their_spans Background handle_A2 (2 * Second)
           held_by_B eq_refl).
Defined.

Lemma untraced_methods_are_silent_witness :
  let l := handle_A in
  let w := held_by_B in
  let d := 2 * Second in
  protocol (trace (Lock Background l w)) = trace (Lock Background l w)
  ∧ protocol (trace (TryLock Background l w)) = trace (TryLock Background l w)
  ∧ protocol (trace (Unlock Background l w)) = trace (Unlock Background l w)
  ∧ protocol (trace (Extend Background l d w))
    = trace (Extend Background l d w).
Proof.
  exact (untraced_methods_are_silent Background handle_A (2 * Second)
           held_by_B eq_refl).
Defined.

Lemma configured_handle_attempts_witness :
  let o := Options.mk "" (5 * Second) (100 * Millisecond) 3 true in
  let l := result (NewRedisLock (Ctx := Context) tt (Some o) free) in
  (1 <= attempts (trace (Lock Background l held_by_B)))%nat
  ∧ Options.Key (options l) = "".
Proof.
  exact (configured_handle_attempts config_5s
           (Options.mk "" (5 * Second) (100 * Millisecond) 3 true)
           tt Background free held_by_B eq_refl).
Defined.

Lemma acquire_then_release_witness :
  let r1 := TryLock Background handle_A free in
  let r2 := Unlock Background handle_A (world r1) in
  result r1 = (true, None) ∧ result r2 = None ∧ db (world r2) = db free.
Proof.
  apply (acquire_then_release_restores_store Background Background
           handle_A free).
  - reflexivity.
  - constructor.
Defined.

Lemma Unlock_twice_witness :
  let r1 := Unlock Background handle_B held_by_B in
  let r2 := Unlock Background handle_B (world r1) in
  result r1 = None ∧ result r2 = None ∧ db (world r2) = db (world r1).
Proof.
  apply (Unlock_twice_is_Unlock_once Background Background handle_B
           held_by_B).
  constructor.
Defined.

(** [handle_B'] is another handle, with other options; it carries the
    token of [handle_B] and so releases what [handle_B] acquired. *)
Lemma token_decides_release_witness :
  let r1 := TryLock Background handle_B free in
  let r2 := Unlock Background handle_B' (world r1) in
  result r1 = (true, None)
  ∧ result r2 = None
  ∧ db (world r2) !! Options.Key (options handle_B)
    = if bool_decide (value handle_B' = value handle_B) then None
      else Some (mkEntry (value handle_B)
                   (lease (Options.TTL (options handle_B)))).
Proof.
  apply (token_decides_release Background Background handle_B handle_B'
           free).
  - reflexivity.
  - reflexivity.
  - constructor.
Defined.

Lemma other_keys_untouched_witness :
  db (world (TryLock Background handle_B two_keys)) !! "res2"
  = db two_keys !! "res2"
  ∧ db (world (Unlock Background handle_B two_keys)) !! "res2"
    = db two_keys !! "res2"
  ∧ db (world (Extend Background handle_B (2 * Second) two_keys)) !! "res2"
    = db two_keys !! "res2".
Proof.
  apply (other_keys_untouched Background handle_B (2 * Second) two_keys
           "res2").
  discriminate.
Defined.

Lemma Lock_success_holds_lease_witness :
  db (world (Lock Background handle_A free)) !! Options.Key (options handle_A)
  = Some (mkEntry (value handle_A) (lease (Options.TTL (options handle_A)))).
Proof.
  apply (Lock_success_holds_lease Background handle_A free).
  vm_compute. reflexivity.
Defined.

Lemma Lock_acquires_once_lease_expires_witness :
  let r := Lock Background handle_A2 expiring_soon in
  result r = None
  ∧ attempts (trace r) = 2%nat ∧ waits (trace r) = 1%nat
  ∧ db (world r) !! Options.Key (options handle_A2)
    = Some (mkEntry (value handle_A2)
              (lease (Options.TTL (options handle_A2))))
  ∧ clock (world r)
    = clock expiring_soon + Options.RetryDelay (options handle_A2).
Proof.
  apply (Lock_acquires_once_lease_expires handle_A2 expiring_soon "tokB"
           (50 * Millisecond)).
  - reflexivity.
  - vm_compute. split; [reflexivity|discriminate].
  - vm_compute. discriminate.
  - constructor.
Defined.

Lemma Lock_uncontended_witness :
  let r := Lock Background handle_A free in
  result r = None
  ∧ attempts (trace r) = 1%nat ∧ waits (trace r) = 0%nat
  ∧ clock (world r) = clock free
  ∧ db (world r)
    = <[Options.Key (options handle_A) :=
          mkEntry (value handle_A)
            (lease (Options.TTL (options handle_A)))]> (db free).
Proof.
  apply (Lock_uncontended_does_not_wait Background handle_A free).
  - reflexivity.
  - vm_compute. discriminate.
  - constructor.
Defined.

End MoreRuns.
